(** * foundry-vtt-mcp: connection supervisor, dual-transport bridge, job polling

    A shallow embedding of the TypeScript sources

    - [packages/mcp-server/src/utils/comfyui-paths.ts]  (the detection of the
      ComfyUI installation, class [BackendClient], [startWrapper])
    - [packages/foundry-module/src/socket-bridge.ts]    (class [SocketBridge])
    - [packages/foundry-module/src/settings.ts]         ([validateSettings])
    - the ComfyUI client ([ComfyUIClient]) and the map-generation tools
      ([MapGenerationTools])

    JavaScript objects become records, callbacks become explicit events fed to
    a step function, promises become entries of a settlement log, and
    exceptions are carried by a small error monad.  The first part holds the
    embedding ([Js], [SocketBridge], [BackendClient], [ComfyUIClient],
    [MapGenerationTools], [JobOrchestrator], [Wrapper], [BridgeHandlers],
    [MapTools], [ComfyUIService], [ComfyUIPaths], [ServiceProcess],
    [ModuleSettings], [MapRequest]), the second the properties. *)

From Stdlib Require Import ZArith QArith Qround Qminmax Qpower Lia Lqa String Ascii List Bool.
From stdpp Require Import gmap strings list fin_maps pretty.

Local Open Scope string_scope.
Local Open Scope list_scope.
Local Open Scope Z_scope.

(** ** JavaScript values and exceptions *)

Module Js.

(** JSON-shaped values as the sources receive them from [JSON.parse] and
    axios.  Numbers are restricted to integers. *)
#[warnings="-register-all"]
Inductive JsValue :=
| JUndefined
| JNull
| JBool (b : bool)
| JNum (n : Z)
| JStr (s : string)
| JArr (xs : list JsValue)
| JObj (fields : list (string * JsValue)).

(** What a [catch] clause may receive: an [Error] instance with its message,
    or any other thrown value. *)
Inductive Thrown :=
| ErrorObj (message : string)
| NonError.

(** [error instanceof Error ? error.message : 'Unknown error'] *)
Definition errorMessage (e : Thrown) : string :=
  match e with
  | ErrorObj m => m
  | NonError => "Unknown error"
  end.

(** Computations that may throw. *)
Inductive Exc (A : Type) :=
| Normal (a : A)
| Throw (e : Thrown).
Arguments Normal {A} a.
Arguments Throw {A} e.

Definition bind {A B} (m : Exc A) (k : A -> Exc B) : Exc B :=
  match m with
  | Normal a => k a
  | Throw e => Throw e
  end.

(** [try { m } catch (e) { h e }] *)
Definition try_catch {A} (m : Exc A) (h : Thrown -> Exc A) : Exc A :=
  match m with
  | Normal a => Normal a
  | Throw e => h e
  end.

Definition typeError : Thrown := ErrorObj "TypeError".

(** ToBoolean *)
Definition truthy (v : JsValue) : bool :=
  match v with
  | JUndefined | JNull => false
  | JBool b => b
  | JNum n => negb (n =? 0)
  | JStr s => negb (String.eqb s "")
  | JArr _ | JObj _ => true
  end.

Definition nullish (v : JsValue) : bool :=
  match v with
  | JUndefined | JNull => true
  | _ => false
  end.

Fixpoint assoc (k : string) (fs : list (string * JsValue)) : JsValue :=
  match fs with
  | [] => JUndefined
  | (k', v) :: fs' => if String.eqb k k' then v else assoc k fs'
  end.

(** Decimal index of a property name such as ["1"], if it is one. *)
Definition index_of_key (k : string) (bound : nat) : option nat :=
  head (filter (fun i => pretty i = k) (seq 0 bound)).

(** [v[k]] and [v.k]: reading a property of [null] or [undefined] throws. *)
Definition get (v : JsValue) (k : string) : Exc JsValue :=
  match v with
  | JUndefined | JNull => Throw typeError
  | JBool _ | JNum _ => Normal JUndefined
  | JStr s =>
      if String.eqb k "length" then Normal (JNum (Z.of_nat (String.length s)))
      else match index_of_key k (String.length s) with
           | Some i => Normal (JStr (String.substring i 1 s))
           | None => Normal JUndefined
           end
  | JArr xs =>
      if String.eqb k "length" then Normal (JNum (Z.of_nat (length xs)))
      else match index_of_key k (length xs) with
           | Some i => Normal (default JUndefined (xs !! i))
           | None => Normal JUndefined
           end
  | JObj fs => Normal (assoc k fs)
  end.

(** [v?.k] *)
Definition get_opt (v : JsValue) (k : string) : Exc JsValue :=
  if nullish v then Normal JUndefined else get v k.

(** [a || b] on values *)
Definition or_else (a b : JsValue) : JsValue := if truthy a then a else b.

(** [Object.keys(v).length] *)
Definition Object_keys_length (v : JsValue) : Exc nat :=
  match v with
  | JUndefined | JNull => Throw typeError
  | JBool _ | JNum _ => Normal 0%nat
  | JStr s => Normal (String.length s)
  | JArr xs => Normal (length xs)
  | JObj fs => Normal (length fs)
  end.

(** [String(v)], as a template literal converts a value *)
Fixpoint to_string (v : JsValue) : string :=
  match v with
  | JUndefined => "undefined"
  | JNull => "null"
  | JBool true => "true"
  | JBool false => "false"
  | JNum n => pretty n
  | JStr s => s
  | JArr xs =>
      String.concat ","
        (map (fun x => if nullish x then "" else to_string x) xs)
  | JObj _ => "[object Object]"
  end.

(** [v === s] for a string [s] *)
Definition strict_eq_str (v : JsValue) (s : string) : bool :=
  match v with
  | JStr s' => String.eqb s' s
  | _ => false
  end.

End Js.

Module JsNotations.
Notation "'let!' x ':=' m 'in' k" := (Js.bind m (fun x => k))
  (at level 10, x name, m at level 100, k at level 200).
End JsNotations.

(** ** The dual-transport bridge ([socket-bridge.ts]) *)

Module SocketBridge.

(** [CONNECTION_STATES] comes from [constants.js]; the bridge only compares
    its four members, which are taken pairwise distinct. *)
Inductive ConnectionState := DISCONNECTED | CONNECTING | CONNECTED | RECONNECTING.

(** ['websocket' | 'webrtc'] *)
Inductive Transport := websocket | webrtc.

(** ['auto' | 'webrtc' | 'websocket'] *)
Inductive ConnectionTypeSetting := auto | explicit (t : Transport).

(** The fields of [BridgeConfig] the class reads, and the page protocol read
    by [determineConnectionType]. *)
Record BridgeConfig := {
  cfg_reconnectAttempts : Z;
  cfg_connectionType : option ConnectionTypeSetting;
  cfg_pageIsHttps : bool
}.

(** Payload of an [mcp-response]: what [handleMCPQuery] hands to its callback. *)
Inductive QueryResponse :=
| QuerySuccess (data : Js.JsValue)
| QueryFailure (error : string).

Inductive Outgoing :=
| McpResponse (id : Js.JsValue) (data : QueryResponse)
| Pong (id : Js.JsValue)
| ServerEvent (event : string) (data : Js.JsValue).

(** Everything the bridge does to the outside world, oldest first. *)
Inductive Output :=
| OSchedule (timer : nat) (delay : Z)   (* setTimeout of a reconnect *)
| OClearTimer (timer : nat)             (* clearTimeout *)
| OConnected                            (* a transport became ready *)
| OSend (via : Transport) (m : Outgoing)
| OCloseWs                              (* ws.close(1000, 'Manual disconnect') *)
| OCloseRtc                             (* webrtc.disconnect() *)
| OSceneCreation                        (* handleJobCompleted's Foundry calls *)
| ONotification.                        (* handleProgressUpdate's banner *)

(** The private fields of [SocketBridge] ([rtc] is the field [webrtc]; a
    transport object is named by a number), and the reconnect timers of the
    event loop.  [log] only writes to the console and is left out. *)
Record Bridge := {
  config : BridgeConfig;
  ws : option nat;
  rtc : option nat;
  connectionState : ConnectionState;
  reconnectAttempts : Z;
  maxReconnectAttempts : Z;
  reconnectTimer : option nat;
  activeConnectionType : option Transport;
  (* the event loop: reconnect timers set and neither fired nor cleared *)
  pendingTimers : list nat;
  nextHandle : nat
}.

Definition new_Bridge (cfg : BridgeConfig) : Bridge :=
  {| config := cfg; ws := None; rtc := None;
     connectionState := DISCONNECTED;
     reconnectAttempts := 0;
     maxReconnectAttempts := cfg_reconnectAttempts cfg;
     reconnectTimer := None;
     activeConnectionType := None;
     pendingTimers := [];
     nextHandle := 1 |}.

Definition set_state (s : ConnectionState) (b : Bridge) : Bridge :=
  {| config := config b; ws := ws b; rtc := rtc b;
     connectionState := s;
     reconnectAttempts := reconnectAttempts b;
     maxReconnectAttempts := maxReconnectAttempts b;
     reconnectTimer := reconnectTimer b;
     activeConnectionType := activeConnectionType b;
     pendingTimers := pendingTimers b;
     nextHandle := nextHandle b |}.

Definition set_attempts (n : Z) (b : Bridge) : Bridge :=
  {| config := config b; ws := ws b; rtc := rtc b;
     connectionState := connectionState b;
     reconnectAttempts := n;
     maxReconnectAttempts := maxReconnectAttempts b;
     reconnectTimer := reconnectTimer b;
     activeConnectionType := activeConnectionType b;
     pendingTimers := pendingTimers b;
     nextHandle := nextHandle b |}.

Definition set_timer (t : option nat) (pend : list nat) (b : Bridge) : Bridge :=
  {| config := config b; ws := ws b; rtc := rtc b;
     connectionState := connectionState b;
     reconnectAttempts := reconnectAttempts b;
     maxReconnectAttempts := maxReconnectAttempts b;
     reconnectTimer := t;
     activeConnectionType := activeConnectionType b;
     pendingTimers := pend;
     nextHandle := nextHandle b |}.

Definition set_transports (w r : option nat) (a : option Transport) (b : Bridge) : Bridge :=
  {| config := config b; ws := w; rtc := r;
     connectionState := connectionState b;
     reconnectAttempts := reconnectAttempts b;
     maxReconnectAttempts := maxReconnectAttempts b;
     reconnectTimer := reconnectTimer b;
     activeConnectionType := a;
     pendingTimers := pendingTimers b;
     nextHandle := nextHandle b |}.

Definition bump_handle (b : Bridge) : Bridge :=
  {| config := config b; ws := ws b; rtc := rtc b;
     connectionState := connectionState b;
     reconnectAttempts := reconnectAttempts b;
     maxReconnectAttempts := maxReconnectAttempts b;
     reconnectTimer := reconnectTimer b;
     activeConnectionType := activeConnectionType b;
     pendingTimers := pendingTimers b;
     nextHandle := S (nextHandle b) |}.

Definition remove_timer (t : nat) (l : list nat) : list nat :=
  filter (fun x => x ≠ t) l.

(** [Math.min(1000 * Math.pow(2, this.reconnectAttempts), 30000)] *)
Definition reconnectDelay (attempts : Z) : Z :=
  Z.min (1000 * 2 ^ attempts) 30000.

(** [scheduleReconnect()] *)
Definition scheduleReconnect (b : Bridge) : Bridge * list Output :=
  if reconnectAttempts b >=? maxReconnectAttempts b then (b, [])
  else
    let cleared :=
      match reconnectTimer b with
      | Some t => [OClearTimer t]
      | None => []
      end in
    let pend :=
      match reconnectTimer b with
      | Some t => remove_timer t (pendingTimers b)
      | None => pendingTimers b
      end in
    let delay := reconnectDelay (reconnectAttempts b) in
    let t := nextHandle b in
    let b1 := set_attempts (reconnectAttempts b + 1) b in
    let b2 := set_state RECONNECTING b1 in
    let b3 := bump_handle (set_timer (Some t) (pend ++ [t]) b2) in
    (b3, cleared ++ [OSchedule t delay]).

(** [determineConnectionType()] *)
Definition determineConnectionType (cfg : BridgeConfig) : Transport :=
  match default auto (cfg_connectionType cfg) with
  | auto => if cfg_pageIsHttps cfg then webrtc else websocket
  | explicit t => t
  end.

(** [connect()] up to the point where it waits for the transport.  With
    [wsCtorThrows] the [WebSocket] constructor throws and the [catch] of
    [connectWebSocket] runs. *)
Definition connect (wsCtorThrows : bool) (b : Bridge) : Bridge * list Output :=
  match connectionState b with
  | CONNECTED | CONNECTING => (b, [])
  | _ =>
      let b1 := set_state CONNECTING b in
      match determineConnectionType (config b) with
      | webrtc =>
          (bump_handle (set_transports (ws b1) (Some (nextHandle b1)) (Some webrtc) b1), [])
      | websocket =>
          if wsCtorThrows
          then (set_state DISCONNECTED (set_transports (ws b1) (rtc b1) (Some websocket) b1), [])
          else (bump_handle (set_transports (Some (nextHandle b1)) (rtc b1) (Some websocket) b1), [])
      end
  end.

(** [ws.onopen], and the success branch of [connectWebRTC] *)
Definition on_connected (b : Bridge) : Bridge * list Output :=
  (set_attempts 0 (set_state CONNECTED b), [OConnected]).

(** [ws.onerror], and the [catch] branch of [connectWebRTC] *)
Definition on_failed (b : Bridge) : Bridge * list Output :=
  scheduleReconnect (set_state DISCONNECTED b).

(** [ws.onclose] *)
Definition on_close (wasClean : bool) (b : Bridge) : Bridge * list Output :=
  let b1 := set_state DISCONNECTED b in
  if wasClean then (b1, []) else scheduleReconnect b1.

(** the [connectTimeout] callback of [connectWebSocket] *)
Definition on_connect_timeout (b : Bridge) : Bridge * list Output :=
  (set_state DISCONNECTED b, []).

(** [disconnect()] *)
Definition disconnect (b : Bridge) : Bridge * list Output :=
  let o1 := match reconnectTimer b with
            | Some t => [OClearTimer t]
            | None => []
            end in
  let pend := match reconnectTimer b with
              | Some t => remove_timer t (pendingTimers b)
              | None => pendingTimers b
              end in
  let b1 := set_timer None pend b in
  let o2 := match rtc b1 with Some _ => [OCloseRtc] | None => [] end in
  let o3 := match ws b1 with Some _ => [OCloseWs] | None => [] end in
  (set_state DISCONNECTED (set_transports None None None b1), o1 ++ o2 ++ o3).

(** [sendMessage(message)] *)
Definition sendMessage (m : Outgoing) (b : Bridge) : list Output :=
  match connectionState b with
  | CONNECTED =>
      match activeConnectionType b, rtc b, ws b with
      | Some webrtc, Some _, _ => [OSend webrtc m]
      | Some websocket, _, Some _ => [OSend websocket m]
      | _, _, _ => []
      end
  | _ => []
  end.


(** *** Incoming messages *)

(** An entry of Foundry's [CONFIG.queries] table, as [handleMCPQuery] tests
    it: [!handler || typeof handler !== 'function']. *)
Inductive QueryEntry :=
| NoEntry
| NotAFunction
| Handler (h : Js.JsValue -> Js.Exc Js.JsValue).

Section Handlers.

Import JsNotations.

(** [CONFIG.queries[key]]: the table is Foundry's, not the bridge's. *)
Variable queries : Js.JsValue -> QueryEntry.

(** [handleMCPQuery(data, callback)]: the value is what [callback] receives;
    [Throw] means the exception left the method. *)
Definition handleMCPQuery (data : Js.JsValue) : Js.Exc QueryResponse :=
  Js.try_catch
    (let! method := Js.get data "method" in
     match queries method with
     | Handler h =>
         let! args := Js.get data "data" in
         let! result := h (Js.or_else args (Js.JObj [])) in
         Js.Normal (QuerySuccess result)
     | NoEntry | NotAFunction =>
         Js.Throw (Js.ErrorObj
           (String.append "No handler found for query: " (Js.to_string method)))
     end)
    (fun error =>
       (* the log line of the catch block reads data.method again *)
       let! _ := Js.get data "method" in
       Js.Normal (QueryFailure (Js.errorMessage error))).

(** [handleProgressUpdate(data)] *)
Definition handleProgressUpdate (data : Js.JsValue) : list Output :=
  if Js.truthy data then [ONotification] else [].

(** [handleMessage(message)]; its [catch] only logs. *)
Definition handleMessage (message : Js.JsValue) (b : Bridge) : Bridge * list Output :=
  let body : Js.Exc (list Output) :=
    let! type := Js.get message "type" in
    if Js.strict_eq_str type "mcp-query" then
      let! data := Js.get message "data" in
      let! response := handleMCPQuery data in
      let! id := Js.get message "id" in
      Js.Normal (sendMessage (McpResponse id response) b)
    else if Js.strict_eq_str type "ping" then
      let! id := Js.get message "id" in
      Js.Normal (sendMessage (Pong id) b)
    else if Js.strict_eq_str type "job-completed" then
      Js.Normal [OSceneCreation]
    else if Js.strict_eq_str type "map-generation-progress" then
      let! data := Js.get message "data" in
      Js.Normal (handleProgressUpdate data)
    else Js.Normal [] in
  match body with
  | Js.Normal outs => (b, outs)
  | Js.Throw _ => (b, [])
  end.

(** *** Events *)

Inductive Event :=
| EConnect (wsCtorThrows : bool)          (* connect() called by the module *)
| ETimer (t : nat) (wsCtorThrows : bool)  (* a reconnect timer fires *)
| EWsOpen                                 (* ws.onopen *)
| EWsError                                (* ws.onerror *)
| EWsClose (wasClean : bool)              (* ws.onclose *)
| EConnectTimeout                         (* the connectTimeout callback *)
| ERtcConnected                           (* webrtc.connect resolved *)
| ERtcFailed                              (* webrtc.connect rejected *)
| EDisconnect                             (* disconnect() *)
| EMessage (m : Js.JsValue)               (* a message from the transport *)
| EEmit (event : string) (data : Js.JsValue).  (* emitToServer(event, data) *)

Definition step (e : Event) (b : Bridge) : Bridge * list Output :=
  match e with
  | EConnect thr => connect thr b
  | ETimer t thr =>
      if bool_decide (t ∈ pendingTimers b)
      then connect thr (set_timer (reconnectTimer b) (remove_timer t (pendingTimers b)) b)
      else (b, [])
  | EWsOpen | ERtcConnected => on_connected b
  | EWsError | ERtcFailed => on_failed b
  | EWsClose wasClean => on_close wasClean b
  | EConnectTimeout => on_connect_timeout b
  | EDisconnect => disconnect b
  | EMessage m => handleMessage m b
  | EEmit event data => (b, sendMessage (ServerEvent event data) b)
  end.

(** Feeding events one after the other, collecting the outputs. *)
Fixpoint exec (es : list Event) (σ : Bridge * list Output) : Bridge * list Output :=
  match es with
  | [] => σ
  | e :: es' =>
      let '(b', o) := step e (fst σ) in
      exec es' (b', snd σ ++ o)
  end.

End Handlers.

End SocketBridge.

(** ** The connection supervisor ([BackendClient]) *)

Module BackendClient.

Import Js JsNotations.

(** How the promise returned by one [send] call was settled. *)
Inductive Outcome :=
| Resolved (v : JsValue)
| Rejected (e : Thrown).

(** [type BackendReq = { id; method; params }] *)
Record BackendReq := {
  req_id : string;
  req_method : string;
  req_params : JsValue
}.

Record Socket := { sock_id : nat; destroyed : bool }.

Record Child := { pid : nat; killed : bool }.

(** The fields of the class, followed by what the client has done so far:
    the lines of [wrapper.log], every call of a [resolve] or [reject] of a
    [send] promise, the requests written to the socket, the delays slept by
    the retry loop, the exit code once [process.exit] has been called, and
    the number of [net.createConnection] calls.
    A [send] promise is named by the number of the call that created it. *)
Record Client := {
  socket : option Socket;
  buffer : string;
  pending : gmap string nat;
  backendProcess : option Child;
  logs : list string;
  settled : list (nat * Outcome);
  wire : list (nat * BackendReq);
  waits : list Q;
  exited : option Z;
  nextCall : nat;
  nextSock : nat;
  connects : nat
}.

Definition new_BackendClient : Client :=
  {| socket := None; buffer := ""; pending := ∅; backendProcess := None;
     logs := []; settled := []; wire := []; waits := []; exited := None;
     nextCall := 0; nextSock := 0; connects := 0 |}.

Definition set_socket (s : option Socket) (c : Client) : Client :=
  {| socket := s; buffer := buffer c; pending := pending c;
     backendProcess := backendProcess c; logs := logs c; settled := settled c;
     wire := wire c; waits := waits c; exited := exited c;
     nextCall := nextCall c; nextSock := nextSock c;
     connects := connects c |}.

Definition set_buffer (s : string) (c : Client) : Client :=
  {| socket := socket c; buffer := s; pending := pending c;
     backendProcess := backendProcess c; logs := logs c; settled := settled c;
     wire := wire c; waits := waits c; exited := exited c;
     nextCall := nextCall c; nextSock := nextSock c;
     connects := connects c |}.

Definition set_pending (p : gmap string nat) (c : Client) : Client :=
  {| socket := socket c; buffer := buffer c; pending := p;
     backendProcess := backendProcess c; logs := logs c; settled := settled c;
     wire := wire c; waits := waits c; exited := exited c;
     nextCall := nextCall c; nextSock := nextSock c;
     connects := connects c |}.

Definition set_backendProcess (p : option Child) (c : Client) : Client :=
  {| socket := socket c; buffer := buffer c; pending := pending c;
     backendProcess := p; logs := logs c; settled := settled c;
     wire := wire c; waits := waits c; exited := exited c;
     nextCall := nextCall c; nextSock := nextSock c;
     connects := connects c |}.

(** [this.log(msg, meta)]: only the message is kept. *)
Definition log (msg : string) (c : Client) : Client :=
  {| socket := socket c; buffer := buffer c; pending := pending c;
     backendProcess := backendProcess c; logs := logs c ++ [msg];
     settled := settled c;
     wire := wire c; waits := waits c; exited := exited c;
     nextCall := nextCall c; nextSock := nextSock c;
     connects := connects c |}.

(** One call of [p.resolve] or [p.reject] for the promise of call [h]. *)
Definition settle (h : nat) (o : Outcome) (c : Client) : Client :=
  {| socket := socket c; buffer := buffer c; pending := pending c;
     backendProcess := backendProcess c; logs := logs c;
     settled := settled c ++ [(h, o)];
     wire := wire c; waits := waits c; exited := exited c;
     nextCall := nextCall c; nextSock := nextSock c;
     connects := connects c |}.

Definition write (s : nat) (r : BackendReq) (c : Client) : Client :=
  {| socket := socket c; buffer := buffer c; pending := pending c;
     backendProcess := backendProcess c; logs := logs c; settled := settled c;
     wire := wire c ++ [(s, r)]; waits := waits c; exited := exited c;
     nextCall := nextCall c; nextSock := nextSock c;
     connects := connects c |}.

Definition sleep (ms : Q) (c : Client) : Client :=
  {| socket := socket c; buffer := buffer c; pending := pending c;
     backendProcess := backendProcess c; logs := logs c; settled := settled c;
     wire := wire c; waits := waits c ++ [ms]; exited := exited c;
     nextCall := nextCall c; nextSock := nextSock c;
     connects := connects c |}.

Definition process_exit (code : Z) (c : Client) : Client :=
  {| socket := socket c; buffer := buffer c; pending := pending c;
     backendProcess := backendProcess c; logs := logs c; settled := settled c;
     wire := wire c; waits := waits c; exited := Some code;
     nextCall := nextCall c; nextSock := nextSock c;
     connects := connects c |}.

Definition new_call (c : Client) : Client :=
  {| socket := socket c; buffer := buffer c; pending := pending c;
     backendProcess := backendProcess c; logs := logs c; settled := settled c;
     wire := wire c; waits := waits c; exited := exited c;
     nextCall := S (nextCall c); nextSock := nextSock c;
     connects := connects c |}.

Definition new_handle (c : Client) : Client :=
  {| socket := socket c; buffer := buffer c; pending := pending c;
     backendProcess := backendProcess c; logs := logs c; settled := settled c;
     wire := wire c; waits := waits c; exited := exited c;
     nextCall := nextCall c; nextSock := S (nextSock c);
     connects := connects c |}.

Definition count_connect (c : Client) : Client :=
  {| socket := socket c; buffer := buffer c; pending := pending c;
     backendProcess := backendProcess c; logs := logs c; settled := settled c;
     wire := wire c; waits := waits c; exited := exited c;
     nextCall := nextCall c; nextSock := nextSock c;
     connects := S (connects c) |}.

(** The promise of call [h] keeps the first settlement it receives. *)
Definition outcome_of (h : nat) (c : Client) : option Outcome :=
  snd <$> head (filter (fun p => fst p = h) (settled c)).

(** *** Connecting *)

(** What [net.createConnection] reports for one attempt. *)
Inductive ConnectResult :=
| ConnOk
| ConnFail (e : Thrown).

(** [connect()] *)
Definition connect (r : ConnectResult) (c0 : Client) : Client * Exc unit :=
  let c := count_connect c0 in
  match r with
  | ConnOk =>
      let sock := {| sock_id := nextSock c; destroyed := false |} in
      (log "connect(): connected to backend" (new_handle (set_socket (Some sock) c)),
       Normal tt)
  | ConnFail e => (log "connect(): error" c, Throw e)
  end.

(** [startBackend()]: the promise always resolves; the child is remembered. *)
Definition startBackend (c : Client) : Client :=
  let c1 := log "startBackend(): spawning" c in
  new_handle (set_backendProcess (Some {| pid := nextSock c1; killed := false |}) c1).

(** The [exit] listener installed by [startBackend]; [None] is the [null]
    code of a child ended by a signal. *)
Definition on_backend_exit (code : option Z) (c : Client) : Client :=
  let c1 := set_backendProcess None c in
  match code with
  | Some 0 =>
      process_exit 0
        (log "startBackend(): backend exited cleanly (likely lock failure), exiting wrapper" c1)
  | Some _ => log "startBackend(): backend exited unexpectedly" c1
  | None => c1
  end.

Definition maxAttempts : nat := 40.

(** [Math.min(250 * Math.pow(1.4, attempt), 2000)], over the rationals. *)
Definition delayMs (attempt : nat) : Q :=
  Qmin (250 * (7 # 5) ^ Z.of_nat attempt) 2000.

(** The [for] loop of [connectWithRetry]: [remaining] iterations are left,
    the next one is number [attempt]; [conn k] is the outcome of the [k]-th
    [connect()] of this call, the direct one being number 0. *)
Fixpoint retryLoop (conn : nat -> ConnectResult) (remaining attempt : nat)
    (lastError : Thrown) (c : Client) : Client * Exc unit :=
  match remaining with
  | O =>
      (c, Throw (ErrorObj
            (String.append "Unable to connect to Foundry MCP backend after "
               (String.append (pretty maxAttempts)
                  (String.append " attempts: " (errorMessage lastError))))))
  | S remaining' =>
      let c1 := sleep (delayMs attempt) c in
      match connect (conn (S attempt)) c1 with
      | (c2, Normal _) => (c2, Normal tt)
      | (c2, Throw error) =>
          retryLoop conn remaining' (S attempt) error
            (log "connectWithRetry(): retry failed" c2)
      end
  end.

(** [connectWithRetry()] *)
Definition connectWithRetry (conn : nat -> ConnectResult) (c : Client) : Client * Exc unit :=
  match connect (conn O) c with
  | (c1, Normal _) => (c1, Normal tt)
  | (c1, Throw initialError) =>
      let c2 := startBackend (log "connectWithRetry(): starting backend" c1) in
      retryLoop conn maxAttempts 0 initialError c2
  end.

(** [ensure()] *)
Definition ensure (conn : nat -> ConnectResult) (c : Client) : Client * Exc unit :=
  match socket c with
  | Some s =>
      if destroyed s
      then connectWithRetry conn (log "ensure(): connecting to backend" c)
      else (c, Normal tt)
  | None => connectWithRetry conn (log "ensure(): connecting to backend" c)
  end.

(** *** Receiving *)

Definition newline : ascii := ascii_of_nat 10.

(** [s.indexOf(ch)], [None] for -1 *)
Fixpoint indexOf (ch : ascii) (s : string) : option nat :=
  match s with
  | EmptyString => None
  | String a s' => if Ascii.eqb a ch then Some O else S <$> indexOf ch s'
  end.

(** [s.slice(0, n)] *)
Fixpoint slice_to (n : nat) (s : string) : string :=
  match n, s with
  | S n', String a s' => String a (slice_to n' s')
  | _, _ => EmptyString
  end.

(** [s.slice(n)] *)
Fixpoint slice_from (n : nat) (s : string) : string :=
  match n, s with
  | S n', String _ s' => slice_from n' s'
  | _, _ => s
  end.

Definition is_space (a : ascii) : bool :=
  let n := nat_of_ascii a in
  ((9 <=? n) && (n <=? 13) || (n =? 32))%nat.

Fixpoint trim_start (s : string) : string :=
  match s with
  | String a s' => if is_space a then trim_start s' else s
  | EmptyString => EmptyString
  end.

(** the string without its trailing white space *)
Fixpoint trim_end (s : string) : string :=
  match s with
  | EmptyString => EmptyString
  | String a s' =>
      match trim_end s' with
      | EmptyString => if is_space a then EmptyString else String a EmptyString
      | t => String a t
      end
  end.

(** [s.trim()], for the white space of ASCII *)
Definition trim (s : string) : string := trim_end (trim_start s).

Section Receiving.

(** [JSON.parse], which throws a [SyntaxError] on malformed text. *)
Variable JSON_parse : string -> Exc JsValue.

(** [this.pending.get(msg.id)]: the keys are strings. *)
Definition pending_get (id : JsValue) (p : gmap string nat) : option (string * nat) :=
  match id with
  | JStr s => (fun h => (s, h)) <$> p !! s
  | _ => None
  end.

(** [new Error(m).message] *)
Definition Error_message (m : JsValue) : string :=
  match m with
  | JUndefined => ""
  | _ => to_string m
  end.

(** How a response frame settles the request it answers:
    [if (msg.error) p.reject(new Error(msg.error.message)); else p.resolve(msg.result)] *)
Definition frame_outcome (error result : JsValue) : Exc Outcome :=
  if truthy error
  then let! m := get error "message" in Normal (Rejected (ErrorObj (Error_message m)))
  else Normal (Resolved result).

(** [JSON.parse(line) as BackendRes] and the reads of [msg.id], [msg.error]
    and [msg.result] made for the log line. *)
Definition parse_response (line : string) : Exc (JsValue * JsValue * JsValue) :=
  let! msg := JSON_parse line in
  let! id := get msg "id" in
  let! error := get msg "error" in
  let! result := get msg "result" in
  Normal (id, error, result).

(** The body of the [while] loop of [onData] for one non-empty line. *)
Definition process_line (line : string) (c : Client) : Client :=
  match parse_response line with
  | Throw _ => log "onData(): JSON parse error" c
  | Normal (id, error, result) =>
      let c1 := log "onData(): received response" c in
      match pending_get id (pending c1) with
      | None => log "onData(): no pending request found" c1
      | Some (key, h) =>
          let c2 := set_pending (delete key (pending c1)) c1 in
          match frame_outcome error result with
          | Normal o => settle h o c2
          | Throw _ => log "onData(): JSON parse error" c2
          end
      end
  end.

(** The [while] loop of [onData]; every iteration removes at least one
    character from the buffer, which bounds the iterations. *)
Fixpoint onData_loop (fuel : nat) (c : Client) : Client :=
  match fuel with
  | O => c
  | S fuel' =>
      match indexOf newline (buffer c) with
      | None => c
      | Some idx =>
          let line := trim (slice_to idx (buffer c)) in
          let c1 := set_buffer (slice_from (S idx) (buffer c)) c in
          if String.eqb line "" then onData_loop fuel' c1
          else onData_loop fuel' (process_line line c1)
      end
  end.

(** [onData(chunk)] *)
Definition onData (chunk : string) (c : Client) : Client :=
  let c1 := set_buffer (String.append (buffer c) chunk) c in
  onData_loop (String.length (buffer c1)) c1.

(** [rejectAll(err)] *)
Definition rejectAll (err : Thrown) (c : Client) : Client :=
  let c1 := foldl (fun acc p => settle (snd p) (Rejected err) acc) c
                  (map_to_list (pending c)) in
  set_socket None (set_pending ∅ c1).

(** *** Sending *)

(** [send(method, params)]: [id] is the value drawn by
    [Math.random().toString(36).slice(2)], [conn] the outcomes of the
    connection attempts [ensure] may make, [writeThrows] the exception
    [socket.write] throws, if any.  The promise returned is number
    [nextCall c].  The call is taken as one step: what arrives while
    [ensure] is still connecting is not interleaved with it. *)
Definition send (id method : string) (params : JsValue)
    (conn : nat -> ConnectResult) (writeThrows : option Thrown)
    (c : Client) : Client :=
  let h := nextCall c in
  match ensure conn (new_call c) with
  | (c1, Throw e) => settle h (Rejected e) (log "send(): ensure failed" c1)
  | (c1, Normal _) =>
      let req := {| req_id := id; req_method := method; req_params := params |} in
      let c2 := log "send(): write" (set_pending (<[id := h]> (pending c1)) c1) in
      let failed e :=
        settle h (Rejected e)
          (log "send(): write error" (set_pending (delete id (pending c2)) c2)) in
      match socket c2, writeThrows with
      | None, _ => failed typeError
      | Some _, Some e => failed e
      | Some s, None => write (sock_id s) req c2
      end
  end.

(** [cleanup()] *)
Definition cleanup (c : Client) : Client :=
  let c1 := log "cleanup(): shutting down backend" c in
  let c2 :=
    match backendProcess c1 with
    | Some p =>
        if killed p then c1
        else log "cleanup(): backend process killed"
               (set_backendProcess (Some {| pid := pid p; killed := true |}) c1)
    | None => c1
    end in
  match socket c2 with
  | Some s =>
      if destroyed s then c2
      else set_socket (Some {| sock_id := sock_id s; destroyed := true |}) c2
  | None => c2
  end.

(** *** Events of one client *)

Inductive Event :=
| ESend (id method : string) (params : JsValue)
        (conn : nat -> ConnectResult) (writeThrows : option Thrown)
| EData (chunk : string)                 (* socket 'data' *)
| ESocketError (err : Thrown)            (* socket 'error' *)
| ESocketClose                           (* socket 'close' *)
| EBackendExit (code : option Z)         (* child 'exit' *)
| ECleanup.

(** After [process.exit] nothing runs any more. *)
Definition step (e : Event) (c : Client) : Client :=
  match exited c with
  | Some _ => c
  | None =>
      match e with
      | ESend id method params conn w => send id method params conn w c
      | EData chunk => onData chunk c
      | ESocketError err =>
          (* both 'error' listeners run: the one installed when the socket
             was created logs (its reject has no effect on a settled
             promise), the one installed on connection rejects *)
          rejectAll err (log "connect(): error" c)
      | ESocketClose => rejectAll (ErrorObj "Backend disconnected") c
      | EBackendExit code => on_backend_exit code c
      | ECleanup => cleanup c
      end
  end.

Definition run (es : list Event) (c : Client) : Client := foldl (fun c e => step e c) c es.

End Receiving.

End BackendClient.

(** ** The external service client ([ComfyUIClient]) *)

Module ComfyUIClient.

Import Js JsNotations.

(** ['queued' | 'running' | 'complete' | 'failed'] *)
Inductive PollStatus := queued | running | complete | failed.

(** A number computed from the workflow's [steps]; the arithmetic is carried
    out for integer [steps] (the workflow builder writes 8, 20 or 35), any
    other value is coerced by JavaScript without throwing and is not
    followed here. *)
Inductive Num := Finite (n : Z) | Coerced.

Record Progress := {
  currentStep : Num;
  totalSteps : JsValue;
  estimatedTimeRemaining : Num
}.

Record StatusInfo := {
  status : PollStatus;
  progress : option Progress
}.

Definition only (s : PollStatus) : StatusInfo := {| status := s; progress := None |}.

(** What an [axios.get] gives: the response body, or the exception thrown for
    an unreachable server, a timeout or an error status. *)
Inductive HttpResult :=
| HttpOk (data : JsValue)
| HttpFail (e : Thrown).

Definition await_get (r : HttpResult) : Exc JsValue :=
  match r with
  | HttpOk d => Normal d
  | HttpFail e => Throw e
  end.

(** Calling [map], [find] or [some] on a value: only arrays have them. *)
Definition array_of (v : JsValue) : Exc (list JsValue) :=
  match v with
  | JArr xs => Normal xs
  | _ => Throw typeError
  end.

(** [xs.map((item) => item[1])] *)
Fixpoint map_second (xs : list JsValue) : Exc (list JsValue) :=
  match xs with
  | [] => Normal []
  | x :: r =>
      let! v := get x "1" in
      let! vs := map_second r in
      Normal (v :: vs)
  end.

(** [xs.find((item) => item[1] === promptId)] *)
Fixpoint find_prompt (promptId : string) (xs : list JsValue) : Exc JsValue :=
  match xs with
  | [] => Normal JUndefined
  | x :: r =>
      let! v := get x "1" in
      if strict_eq_str v promptId then Normal x else find_prompt promptId r
  end.

(** [xs.some((item) => item[1] === promptId)] *)
Fixpoint some_prompt (promptId : string) (xs : list JsValue) : Exc bool :=
  match xs with
  | [] => Normal false
  | x :: r =>
      let! v := get x "1" in
      if strict_eq_str v promptId then Normal true else some_prompt promptId r
  end.

(** [q?.map((item) => item[1]) || []], evaluated for the log line *)
Definition logged_ids (q : JsValue) : Exc unit :=
  if nullish q then Normal tt
  else let! xs := array_of q in
       let! _ := map_second xs in
       Normal tt.

(** [workflow && workflow['5'] && workflow['5'].inputs && workflow['5'].inputs.steps] *)
Definition workflow_steps (workflow : JsValue) : Exc JsValue :=
  if negb (truthy workflow) then Normal workflow else
  let! node := get workflow "5" in
  if negb (truthy node) then Normal node else
  let! inputs := get node "inputs" in
  if negb (truthy inputs) then Normal inputs else
  get inputs "steps".

Definition estimatedSecondsPerStep : Z := 18.

(** The progress attached to a running job; [rnd] is the value of
    [Math.random()]. *)
Definition running_progress (rnd : Q) (totalSteps : JsValue) : Progress :=
  match totalSteps with
  | JNum n =>
      let cur := Z.min n (Qfloor (rnd * inject_Z n) + 1) in
      {| currentStep := Finite cur;
         totalSteps := totalSteps;
         estimatedTimeRemaining := Finite ((n - cur) * estimatedSecondsPerStep) |}
  | _ =>
      {| currentStep := Coerced; totalSteps := totalSteps;
         estimatedTimeRemaining := Coerced |}
  end.

(** The [try] block of [getJobStatusWithProgress]. *)
Definition poll_body (promptId : string) (history queue : HttpResult) (rnd : Q)
  : Exc StatusInfo :=
  let! historyData := await_get history in
  let! historyKeys := Object_keys_length historyData in
  if truthy historyData && (0 <? historyKeys)%nat then Normal (only complete) else
  let! queueData := await_get queue in
  let! queue_running := get queueData "queue_running" in
  let! _ := get_opt queue_running "length" in
  let! queue_pending := get queueData "queue_pending" in
  let! _ := get_opt queue_pending "length" in
  let! _ := logged_ids queue_running in
  let! _ := logged_ids queue_pending in
  let! runningItem :=
    (if nullish queue_running then Normal JUndefined
     else let! xs := array_of queue_running in find_prompt promptId xs) in
  if truthy runningItem then
    let! workflow := get runningItem "2" in
    let! steps := workflow_steps workflow in
    let totalSteps := if truthy steps then steps else JNum 8 in
    Normal {| status := running; progress := Some (running_progress rnd totalSteps) |}
  else
  let! inPending :=
    (if truthy queue_pending
     then let! xs := array_of queue_pending in some_prompt promptId xs
     else Normal false) in
  if inPending then Normal (only queued) else Normal (only failed).

(** [getJobStatusWithProgress(promptId)]: [history] and [queue] are what the
    two requests give (the second is only made when the first did not
    settle the matter). *)
Definition getJobStatusWithProgress (promptId : string) (history queue : HttpResult)
    (rnd : Q) : Exc StatusInfo :=
  try_catch (poll_body promptId history queue rnd)
            (fun _ => Normal (only failed)).



End ComfyUIClient.

(** ** Map-generation jobs *)

(** The MCP-side tool ([MapGenerationTools]): it forwards the request over
    the bridge and renders the answer as text. *)
Module MapGenerationTools.

Import Js JsNotations.

(** [status] of [JobData] *)
Inductive JobDataStatus :=
| queued | generating | processing | complete | failed | expired.

(** [a ?? b] *)
Definition coalesce (a b : JsValue) : JsValue := if nullish a then b else a.


Section Tools.

(** [foundryClient.query(method, params)] *)
Variable query : string -> JsValue -> Exc JsValue.


End Tools.

End MapGenerationTools.

(** The job table behind the query [foundry-mcp-bridge.cancel-map-job]. *)
Module JobOrchestrator.






(** Modelled from the spec: what reaches the job table (§4.3): the external
    queue reports the job running, the local post-processing starts, a
    completion signal arrives with its artifacts, a failure is reported, the
    job is cancelled (with the outcome of the external interrupt), the
    retention deadline passes. *)
Inductive Signal :=
| Running (now : Z)
| PostProcessing
| Completion (now : Z) (artifacts : list string)
| Failure (now : Z) (reason : string)
| Cancel (now : Z) (interrupted : bool)
| Expire (now : Z).




End JobOrchestrator.

(** ** The MCP wrapper ([startWrapper]) *)

Module Wrapper.

Import Js JsNotations BackendClient.

(** [e?.message || fallback]; a thrown value that is no [Error] is taken to
    carry no message. *)
Definition message_or (e : Thrown) (fallback : string) : string :=
  match e with
  | ErrorObj m => if String.eqb m "" then fallback else m
  | NonError => fallback
  end.

(** The handler of [ListToolsRequestSchema] from the point where the
    promise of [backend.send('list_tools', {})] has settled with [o]. *)
Definition ListTools (o : Outcome) (c : Client) : Client * Exc JsValue :=
  let body : Client * Exc JsValue :=
    match o with
    | Rejected e => (c, Throw e)
    | Resolved res =>
        (* the inner [try] around the log call: its arguments read
           [res.tools] and [res.tools?.length] *)
        let c1 :=
          match (let! tools := get res "tools" in get_opt tools "length") with
          | Normal _ => log "ListTools handler: received from backend" c
          | Throw _ => c
          end in
        (c1, let! tools := get res "tools" in
             Normal (JObj [("tools", or_else tools (JArr []))]))
    end in
  match body with
  | (c1, Normal v) => (c1, Normal v)
  | (c1, Throw _) =>
      (log "ListTools failed; returning empty" c1, Normal (JObj [("tools", JArr [])]))
  end.

(** The handler of [CallToolRequestSchema] up to its [await]: the
    parameters handed to [backend.send('call_tool', ...)]. *)
Definition CallTool_params (request : JsValue) : Exc JsValue :=
  let! params := get request "params" in
  let! name := get params "name" in
  let! args := get params "arguments" in
  Normal (JObj [("name", name); ("args", MapGenerationTools.coalesce args (JObj []))]).

(** [{ content: [{ type: 'text', text }], isError: true }] *)
Definition error_result (text : string) : JsValue :=
  JObj [("content", JArr [JObj [("type", JStr "text"); ("text", JStr text)]]);
        ("isError", JBool true)].

(** The same handler from the point where the promise has settled. *)
Definition CallTool_reply (o : Outcome) : Exc JsValue :=
  try_catch
    (match o with
     | Resolved res => Normal res
     | Rejected e => Throw e
     end)
    (fun e => Normal (error_result
       (String.append "Error: " (message_or e "Backend unavailable")))).

End Wrapper.

(** ** What the bridge shows and creates in Foundry *)

Module BridgeHandlers.

Import Js JsNotations.

(** The double-quote character, which a template literal of the source
    may hold. *)
Definition dquote : string := String (ascii_of_nat 34) EmptyString.

(** *** [handleProgressUpdate]: the text of the banner *)




(** *** [createSceneWalls] *)

(** The calls made on Foundry's side, oldest first. *)
Inductive Effect :=
| CreateWalls (documents : list JsValue)   (* scene.createEmbeddedDocuments *)
| NotifyInfo (message : string)            (* ui.notifications?.info *)
| NotifyWarn (message : string).           (* ui.notifications?.warn *)

(** [typeof coord === 'number' && !isNaN(coord)] *)
Definition is_coordinate (coord : JsValue) : bool :=
  match coord with
  | JNum _ => true
  | _ => false
  end.

(** The callback of [wallsData.filter]. *)
Definition valid_wall (wall : JsValue) : Exc bool :=
  let! c := get wall "c" in
  match c with
  | JArr coords => Normal ((length coords =? 4)%nat && forallb is_coordinate coords)
  | _ => Normal false
  end.

(** [xs.filter(f)] for a callback that may throw *)
Fixpoint filter_exc (f : JsValue -> Exc bool) (xs : list JsValue) : Exc (list JsValue) :=
  match xs with
  | [] => Normal []
  | x :: r =>
      let! keep := f x in
      let! rest := filter_exc f r in
      Normal (if keep then x :: rest else rest)
  end.

(** [xs.map(f)] for a callback that may throw *)
Fixpoint map_exc (f : JsValue -> Exc JsValue) (xs : list JsValue) : Exc (list JsValue) :=
  match xs with
  | [] => Normal []
  | x :: r =>
      let! y := f x in
      let! rest := map_exc f r in
      Normal (y :: rest)
  end.

(** The callback of [validWalls.map]. *)
Definition wall_document (wall : JsValue) : Exc JsValue :=
  let! c := get wall "c" in
  let! movement := get wall "movement" in
  let! sight := get wall "sight" in
  let! direction := get wall "direction" in
  let! door := get wall "door" in
  let! doorState := get wall "doorState" in
  let! flags := get wall "flags" in
  Normal (JObj [("c", c);
                ("move", or_else movement (JNum 0));
                ("sense", or_else sight (JNum 0));
                ("doorSound", JStr "");
                ("dir", or_else direction (JNum 0));
                ("door", or_else door (JNum 0));
                ("ds", or_else doorState (JNum 0));
                ("flags", or_else flags (JObj []))]).

(** [createSceneWalls(scene, wallsData)]: [created] is what awaiting
    [scene.createEmbeddedDocuments] gives.  The result is [Throw] if an
    exception leaves the method. *)
Definition createSceneWalls (scene wallsData : JsValue) (created : Exc unit)
  : list Effect * Exc unit :=
  match wallsData with
  | JArr (w :: ws) =>
      let body : list Effect * Exc unit :=
        match (let! _ := get scene "name" in
               let! validWalls := filter_exc valid_wall (w :: ws) in
               map_exc wall_document validWalls) with
        | Throw e => ([], Throw e)
        | Normal [] =>
            ([NotifyWarn "No valid walls could be created from detection data"], Normal tt)
        | Normal wallDocuments =>
            match created with
            | Throw e => ([CreateWalls wallDocuments], Throw e)
            | Normal _ =>
                match get scene "name" with
                | Throw e => ([CreateWalls wallDocuments], Throw e)
                | Normal name =>
                    ([CreateWalls wallDocuments;
                      NotifyInfo
                        (String.append "Created "
                          (String.append (pretty (length wallDocuments))
                            (String.append " walls in scene "
                              (String.append dquote
                                (String.append (to_string name) dquote)))))],
                     Normal tt)
                end
            end
        end in
      match body with
      | (effects, Normal _) => (effects, Normal tt)
      | (effects, Throw error) =>
          (effects ++
             [NotifyWarn (String.append "Some walls could not be created: "
                                        (errorMessage error))],
           Normal tt)
      end
  | _ => ([], Normal tt)
  end.

End BridgeHandlers.

(** The other tools of [MapGenerationTools] that forward a request over the
    bridge. *)
Module MapTools.

Import Js JsNotations MapGenerationTools.



Section Tools.

(** [foundryClient.query(method, params)] *)
Variable query : string -> JsValue -> Exc JsValue.





End Tools.

End MapTools.

(** ** More of the external service client ([ComfyUIClient]) *)

Module ComfyUIService.

Import Js JsNotations ComfyUIClient.

(** *** Progress pushed over the WebSocket *)

(** [progressCallbacks]: a [Map] from prompt id to callback, which
    [forEach] walks in insertion order.  A callback is named by a number. *)
Definition Callbacks := list (string * nat).

(** [Map.prototype.set]: a key already there keeps its place. *)
Fixpoint map_set (k : string) (v : nat) (m : Callbacks) : Callbacks :=
  match m with
  | [] => [(k, v)]
  | (k', v') :: m' =>
      if String.eqb k k' then (k', v) :: m' else (k', v') :: map_set k v m'
  end.

(** [Map.prototype.delete] *)
Definition map_delete (k : string) (m : Callbacks) : Callbacks :=
  List.filter (fun p => negb (String.eqb k (fst p))) m.

(** [registerProgressCallback(promptId, callback)] *)
Definition registerProgressCallback (promptId : string) (callback : nat)
    (m : Callbacks) : Callbacks :=
  map_set promptId callback m.

(** [unregisterProgressCallback(promptId)] *)
Definition unregisterProgressCallback (promptId : string) (m : Callbacks) : Callbacks :=
  map_delete promptId m.





(** *** Health *)

Definition gpuFields : list string :=
  ["device_name"; "gpu_name"; "device"; "gpu_device"; "torch_device_name"].

(** [for (const field of gpuFields) if (obj[field]) return obj[field]] *)
Fixpoint first_field (obj : JsValue) (fields : list string) : Exc (option JsValue) :=
  match fields with
  | [] => Normal None
  | field :: rest =>
      let! v := get obj field in
      if truthy v then Normal (Some v) else first_field obj rest
  end.

(** [typeof v === 'object'] for a truthy [v] *)
Definition is_object (v : JsValue) : bool :=
  match v with
  | JArr _ | JObj _ => true
  | _ => false
  end.

(** [extractGPUInfo(systemStats)] *)
Definition extractGPUInfo (systemStats : JsValue) : Exc JsValue :=
  let! top := first_field systemStats gpuFields in
  match top with
  | Some v => Normal v
  | None =>
      let! system := get systemStats "system" in
      if truthy system && is_object system then
        let! nested := first_field system gpuFields in
        Normal (default JUndefined nested)
      else Normal JUndefined
  end.

(** [ComfyUIHealthInfo] *)
Record HealthInfo := {
  available : bool;
  responseTime : option Z;
  systemInfo : JsValue;
  gpuInfo : JsValue
}.

(** [checkHealth()]: [response] is what the request to [/system_stats]
    gives, [elapsed] the difference of the two readings of [Date.now()]. *)
Definition checkHealth (response : HttpResult) (elapsed : Z) : Exc HealthInfo :=
  try_catch
    (let! data := await_get response in
     let! gpu := extractGPUInfo data in
     Normal {| available := true; responseTime := Some elapsed;
               systemInfo := data; gpuInfo := gpu |})
    (fun _ => Normal {| available := false; responseTime := None;
                        systemInfo := JUndefined; gpuInfo := JUndefined |}).

(** *** The images of a finished job *)

Definition digit (a : ascii) : option N :=
  let n := N_of_ascii a in
  if ((48 <=? n) && (n <=? 57))%N then Some (n - 48)%N else None.

Fixpoint parse_digits (acc : N) (s : string) : option N :=
  match s with
  | EmptyString => Some acc
  | String a r =>
      match digit a with
      | Some d => parse_digits (10 * acc + d)%N r
      | None => None
      end
  end.

(** The number a property name stands for when it is an array index: a
    canonical decimal numeral below [2^32 - 1]. *)
Definition array_index (k : string) : option N :=
  match parse_digits 0%N k with
  | Some n =>
      if negb (String.eqb k "") && String.eqb (pretty n) k && (n <? 4294967295)%N
      then Some n else None
  | None => None
  end.

Fixpoint insert_key (n : N) (k : string) (l : list (N * string)) : list (N * string) :=
  match l with
  | [] => [(n, k)]
  | (m, k') :: r => if (n <=? m)%N then (n, k) :: l else (m, k') :: insert_key n k r
  end.

(** The own keys of an object in the order of [Object.keys]: the array
    indices in ascending order, then the other names as they were added.
    An object holds each key once. *)
Definition own_keys (fields : list (string * JsValue)) : list string :=
  let ks := map fst fields in
  let indices :=
    foldr (fun k acc => match array_index k with
                        | Some n => insert_key n k acc
                        | None => acc
                        end) [] ks in
  map snd indices ++
  List.filter (fun k => match array_index k with Some _ => false | None => true end) ks.

(** [Object.keys(v)] *)
Definition Object_keys (v : JsValue) : Exc (list string) :=
  match v with
  | JUndefined | JNull => Throw typeError
  | JBool _ | JNum _ => Normal []
  | JStr s => Normal (map pretty (seq 0 (String.length s)))
  | JArr xs => Normal (map pretty (seq 0 (length xs)))
  | JObj fields => Normal (own_keys fields)
  end.

(** [for (const image of images) if (image.filename) push(image.filename)] *)
Fixpoint image_names (images : list JsValue) : Exc (list JsValue) :=
  match images with
  | [] => Normal []
  | image :: rest =>
      let! filename := get image "filename" in
      let! names := image_names rest in
      Normal (if truthy filename then filename :: names else names)
  end.

(** The loop of [getJobImages] over the node ids. *)
Fixpoint node_names (outputs : JsValue) (nodeIds : list string) : Exc (list JsValue) :=
  match nodeIds with
  | [] => Normal []
  | nodeId :: rest =>
      let! nodeOutput := get outputs nodeId in
      let! names :=
        (if truthy nodeOutput then
           let! images := get nodeOutput "images" in
           match images with
           | JArr xs => image_names xs
           | _ => Normal []
           end
         else Normal []) in
      let! more := node_names outputs rest in
      Normal (names ++ more)
  end.

(** [getJobImages(promptId)]: [history] is what the request to
    [/history/<promptId>] gives. *)
Definition getJobImages (promptId : string) (history : HttpResult) : Exc (list JsValue) :=
  try_catch
    (let! h := await_get history in
     if negb (truthy h) then Normal [] else
     let! keys := Object_keys h in
     if (length keys =? 0)%nat then Normal [] else
     let! jobData := get h promptId in
     if negb (truthy jobData) then Normal [] else
     let! outputs := get jobData "outputs" in
     if negb (truthy outputs) then Normal [] else
     let! nodeIds := Object_keys outputs in
     node_names outputs nodeIds)
    (fun _ => Normal []).

End ComfyUIService.

(** ** Finding the ComfyUI installation ([comfyui-paths.ts]) *)

Module ComfyUIPaths.

Import Js JsNotations.

Section Platform.

(** [isWindows()] and [isMac()] of [platform.js], and the variables of
    [process.env] that are read. *)
Variables isWindows isMac : bool.
Variables HOME USERPROFILE LOCALAPPDATA : option string.

(** [fs.existsSync], [fs.statSync(p).isFile()] (which throws when the path
    cannot be read) and [path.join]. *)
Variable existsSync : string -> bool.
Variable statSync_isFile : string -> Exc bool.
Variable path_join : list string -> string.

(** [a || b] for a value of [process.env] *)
Definition env_or (a : option string) (b : string) : string :=
  match a with
  | Some s => if String.eqb s "" then b else s
  | None => b
  end.

(** [isValidComfyUIPath(dirPath)] *)
Definition isValidComfyUIPath (dirPath : string) : Exc bool :=
  try_catch
    (let mainPyPath := path_join [dirPath; "main.py"] in
     if existsSync mainPyPath then statSync_isFile mainPyPath else Normal false)
    (fun _ => Normal false).

(** [getCommonComfyUIPaths()] *)
Definition getCommonComfyUIPaths : list string :=
  let home := env_or HOME (env_or USERPROFILE "") in
  if isWindows then
    let localAppData := env_or LOCALAPPDATA "C:\Users\Default\AppData\Local" in
    [localAppData +:+ "\FoundryMCPServer\ComfyUI-headless";
     localAppData +:+ "\ComfyUI";
     "C:\ComfyUI";
     home +:+ "\ComfyUI"]
  else if isMac then
    let appSupport := home +:+ "/Library/Application Support" in
    ["/Applications/FoundryMCPServer.app/Contents/Resources/ComfyUI";
     appSupport +:+ "/FoundryMCPServer/ComfyUI-headless";
     appSupport +:+ "/ComfyUI";
     "/Applications/ComfyUI.app/Contents/Resources/ComfyUI";
     home +:+ "/ComfyUI";
     "/opt/ComfyUI";
     "/usr/local/ComfyUI"]
  else
    [home +:+ "/.local/share/FoundryMCPServer/ComfyUI-headless";
     home +:+ "/ComfyUI";
     "/opt/ComfyUI";
     "/usr/local/ComfyUI"].

(** The loop of [detectComfyUIInstallation]. *)
Fixpoint first_installation (paths : list string) : Exc (option string) :=
  match paths with
  | [] => Normal None
  | dirPath :: rest =>
      let! valid := isValidComfyUIPath dirPath in
      if valid then Normal (Some dirPath) else first_installation rest
  end.

(** [detectComfyUIInstallation()]; [None] is [null]. *)
Definition detectComfyUIInstallation : Exc (option string) :=
  first_installation getCommonComfyUIPaths.

(** [isComfyUIDesktopInstalled()] *)
Definition isComfyUIDesktopInstalled : bool :=
  if negb isMac then false else existsSync "/Applications/ComfyUI.app".

(** [getDefaultPythonCommand(installPath)]; [None] is a missing argument. *)
Definition getDefaultPythonCommand (installPath : option string) : string :=
  if isWindows then "python/python.exe"
  else if isMac then
    let systemPython311 :=
      "/Library/Frameworks/Python.framework/Versions/3.11/bin/python3" in
    let fallback := if existsSync systemPython311 then systemPython311 else "python3" in
    match installPath with
    | Some p =>
        if String.eqb p "" then fallback
        else
          let venvPython := path_join [p; "venv"; "bin"; "python"] in
          if existsSync venvPython then venvPython else fallback
    | None => fallback
    end
  else "python3".

(** *** The client's use of it ([ComfyUIClient]) *)

(** [getAppDataDir()] of [platform.js] *)
Variable appDataDir : string.

(** [getDefaultInstallPath()] *)
Definition getDefaultInstallPath : string :=
  path_join [appDataDir; "foundry-mcp-server"; "ComfyUI-headless"].

(** What the constructor leaves in [config.installPath] and
    [config.pythonCommand]; [override] is what [options.config] holds under
    these keys, if it has them. *)
Definition constructed_config (override_installPath : option (option string))
    (override_pythonCommand : option string) : Exc (option string * string) :=
  let! detectedPath := detectComfyUIInstallation in
  let installPath :=
    match detectedPath with
    | Some p => if String.eqb p "" then getDefaultInstallPath else p
    | None => getDefaultInstallPath
    end in
  let defaultPython := getDefaultPythonCommand (Some installPath) in
  Normal (default (Some installPath) override_installPath,
          default defaultPython override_pythonCommand).

(** [checkInstallation()] for a client whose [config.installPath] is
    [installPath]. *)
Definition checkInstallation (installPath : option string) : Exc bool :=
  match installPath with
  | Some p => if String.eqb p "" then Normal false else isValidComfyUIPath p
  | None => Normal false
  end.

End Platform.

End ComfyUIPaths.

(** ** The ComfyUI process ([startService], [stopService]) *)

Module ServiceProcess.

Import Js JsNotations.

(** A [ChildProcess]: its identity and its [killed] flag, which [kill] sets
    when the signal was delivered. *)
Record Proc := { pid : nat; killed : bool }.

Inductive Signal := SIGTERM | SIGKILL.

(** The fields of [ComfyUIClient] that the process management uses, the
    calls of [kill] made so far, and the force-kill timers that are set and
    have not fired. *)
Record Service := {
  installPath : option string;
  process : option Proc;
  logStream : bool;
  signals : list (nat * Signal);
  timers : nat;
  nextPid : nat
}.

Definition new_Service (installPath : option string) : Service :=
  {| installPath := installPath; process := None; logStream := false;
     signals := []; timers := 0; nextPid := 0 |}.

(** [!this.config.installPath] *)
Definition remote (s : Service) : bool :=
  match installPath s with
  | Some p => String.eqb p ""
  | None => true
  end.

(** [this.process && !this.process.killed] *)
Definition running (s : Service) : bool :=
  match process s with
  | Some p => negb (killed p)
  | None => false
  end.

(** [this.process.kill(signal)]; [delivered] is what [kill] returns. *)
Definition kill (sig : Signal) (delivered : bool) (s : Service) : Service :=
  match process s with
  | Some p =>
      {| installPath := installPath s;
         process := Some {| pid := pid p; killed := killed p || delivered |};
         logStream := logStream s;
         signals := signals s ++ [(pid p, sig)];
         timers := timers s; nextPid := nextPid s |}
  | None => s
  end.

Definition set_process (p : option Proc) (s : Service) : Service :=
  {| installPath := installPath s; process := p; logStream := logStream s;
     signals := signals s; timers := timers s; nextPid := nextPid s |}.

Definition set_logStream (b : bool) (s : Service) : Service :=
  {| installPath := installPath s; process := process s; logStream := b;
     signals := signals s; timers := timers s; nextPid := nextPid s |}.

(** [startService()], taken as one step: [installed] is what
    [checkInstallation] gives, [ready] what [waitForServiceReady] does. *)
Definition startService (installed : bool) (ready : Exc unit) (s : Service)
  : Service * Exc unit :=
  if remote s then
    (s, Throw (ErrorObj
      "Cannot start ComfyUI service in remote mode. Ensure remote ComfyUI instance is running."))
  else if running s then (s, Normal tt)
  else if negb installed then (s, Throw (ErrorObj "ComfyUI is not installed"))
  else
    let child := {| pid := nextPid s; killed := false |} in
    ({| installPath := installPath s; process := Some child; logStream := true;
        signals := signals s; timers := timers s; nextPid := S (nextPid s) |},
     ready).

(** The ['exit'] listener of a child. *)
Definition on_exit (s : Service) : Service :=
  set_logStream false (set_process None s).

(** [stopService()] *)
Definition stopService (delivered : bool) (s : Service) : Service :=
  if remote s then s
  else if negb (running s) then s
  else
    let s1 := set_logStream false (kill SIGTERM delivered s) in
    set_process None
      {| installPath := installPath s1; process := process s1; logStream := logStream s1;
         signals := signals s1; timers := S (timers s1); nextPid := nextPid s1 |}.

(** The callback of the five-second timer of [stopService]. *)
Definition force_kill (delivered : bool) (s : Service) : Service :=
  if running s then kill SIGKILL delivered s else s.

(** [shutdown()] *)
Definition shutdown (delivered : bool) (s : Service) : Service :=
  if running s then stopService delivered s else s.

Inductive Event :=
| EStart (installed : bool) (ready : Exc unit)
| EStop (delivered : bool)
| EShutdown (delivered : bool)
| EForceKill (delivered : bool)      (* a force-kill timer fires *)
| EExit.                             (* a child reports its exit *)

Definition step (s : Service) (e : Event) : Service :=
  match e with
  | EStart installed ready => fst (startService installed ready s)
  | EStop delivered => stopService delivered s
  | EShutdown delivered => shutdown delivered s
  | EForceKill delivered =>
      match timers s with
      | O => s
      | S n =>
          force_kill delivered
            {| installPath := installPath s; process := process s;
               logStream := logStream s; signals := signals s;
               timers := n; nextPid := nextPid s |}
      end
  | EExit => on_exit s
  end.

Definition run (es : list Event) (s : Service) : Service := foldl step s es.

End ServiceProcess.

(** ** The settings of the module ([settings.ts]) *)

Module ModuleSettings.

Import Js.




End ModuleSettings.

(** [generateMap] of [MapGenerationTools]. *)
Module MapRequest.

Import Js JsNotations MapGenerationTools.




Section Tools.

(** [foundryClient.query(method, params)] *)
Variable query : string -> JsValue -> Exc JsValue.

(** [Number(v)] for a [v] that is no number, when the result is finite;
    as everywhere, numbers are whole. *)
Variable Number_finite : JsValue -> option Z.


End Tools.

End MapRequest.

(** * Properties *)

(** ** Reconnection of the bridge *)

Module BridgeReconnect.

Import SocketBridge.

(** The delays of the reconnects scheduled since the bridge last became
    connected, and before that the closed runs, oldest first. *)
Definition runs_step (acc : list (list Z) * list Z) (o : Output) : list (list Z) * list Z :=
  match o with
  | OSchedule _ d => (fst acc, snd acc ++ [d])
  | OConnected => (fst acc ++ [snd acc], [])
  | _ => acc
  end.

Definition runs_of (outs : list Output) : list (list Z) * list Z :=
  foldl runs_step ([], []) outs.

Definition backoff_runs (outs : list Output) : list (list Z) :=
  fst (runs_of outs) ++ [snd (runs_of outs)].

Definition current_run (outs : list Output) : list Z := snd (runs_of outs).

(** Every delay handed to [setTimeout] by [scheduleReconnect]. *)
Definition scheduled (outs : list Output) : list Z :=
  omap (fun o => match o with OSchedule _ d => Some d | _ => None end) outs.

(** A run of consecutive failed attempts: doubling from one second, capped
    at thirty, never decreasing, at most [ceiling] long. *)
Definition backoff_run (ceiling : Z) (s : list Z) : Prop :=
  Z.of_nat (length s) ≤ ceiling ∧
  ∀ (i : nat) d, s !! i = Some d →
    d = Z.min (1000 * 2 ^ Z.of_nat i) 30000 ∧ d ≤ 30000 ∧
    ∀ d', s !! S i = Some d' → d ≤ d' ∧ d' = Z.min (2 * d) 30000.

Definition is_success (e : Event) : bool :=
  match e with
  | EWsOpen | ERtcConnected => true
  | _ => false
  end.

Definition ideal (n : nat) : list Z :=
  map (fun k => reconnectDelay (Z.of_nat k)) (seq 0 n).

Lemma reconnectDelay_le_cap k : reconnectDelay k ≤ 30000.
Proof. unfold reconnectDelay. lia. Qed.

Lemma reconnectDelay_mono a b : 0 ≤ a ≤ b → reconnectDelay a ≤ reconnectDelay b.
Proof.
  intros H. unfold reconnectDelay.
  assert (2 ^ a ≤ 2 ^ b) by (apply Z.pow_le_mono_r; lia).
  lia.
Qed.

Lemma reconnectDelay_doubles k :
  0 ≤ k → reconnectDelay (k + 1) = Z.min (2 * reconnectDelay k) 30000.
Proof.
  intros H. unfold reconnectDelay.
  rewrite Z.pow_add_r by lia. change (2 ^ 1) with 2.
  assert (0 < 2 ^ k) by (apply Z.pow_pos_nonneg; lia).
  lia.
Qed.

Lemma ideal_length n : length (ideal n) = n.
Proof. unfold ideal. by rewrite length_map, length_seq. Qed.

Lemma ideal_lookup n (i : nat) d :
  ideal n !! i = Some d → (i < n)%nat ∧ d = reconnectDelay (Z.of_nat i).
Proof.
  unfold ideal. rewrite list_lookup_fmap. intros H.
  destruct (seq 0 n !! i) as [k|] eqn:E; simplify_eq/=.
  apply lookup_seq in E as [-> ?]. done.
Qed.

Lemma ideal_snoc n : ideal (S n) = ideal n ++ [reconnectDelay (Z.of_nat n)].
Proof. unfold ideal. rewrite seq_S, map_app. done. Qed.

Lemma ideal_backoff_run ceiling n :
  Z.of_nat n ≤ ceiling → backoff_run ceiling (ideal n).
Proof.
  intros Hn. split; [by rewrite ideal_length|].
  intros i d Hi. apply ideal_lookup in Hi as [Hlt ->].
  split; [done|]. split; [apply reconnectDelay_le_cap|].
  intros d' Hi'. apply ideal_lookup in Hi' as [_ ->].
  replace (Z.of_nat (S i)) with (Z.of_nat i + 1) by lia.
  split; [apply reconnectDelay_mono; lia | apply reconnectDelay_doubles; lia].
Qed.

(** The invariant of the counter: the current run is the ideal run of the
    counter's length, the closed runs were ideal too. *)
Definition counted (b : Bridge) (outs : list Output) : Prop :=
  0 ≤ reconnectAttempts b ≤ maxReconnectAttempts b ∧
  snd (runs_of outs) = ideal (Z.to_nat (reconnectAttempts b)) ∧
  Forall (backoff_run (maxReconnectAttempts b)) (fst (runs_of outs)) ∧
  Forall (fun d => d ≤ 30000) (scheduled outs).

Definition silent (o : Output) : Prop :=
  match o with
  | OSchedule _ _ | OConnected => False
  | _ => True
  end.

Lemma scheduled_app o1 o2 : scheduled (o1 ++ o2) = scheduled o1 ++ scheduled o2.
Proof. apply omap_app. Qed.

Lemma scheduled_silent o : Forall silent o → scheduled o = [].
Proof.
  induction 1 as [|x o Hx _ IH]; [done|].
  unfold scheduled in *. destruct x; simpl in *; done.
Qed.


Lemma runs_of_app outs o : runs_of (outs ++ o) = foldl runs_step (runs_of outs) o.
Proof. unfold runs_of. apply foldl_app. Qed.


Lemma runs_of_silent outs o : Forall silent o → runs_of (outs ++ o) = runs_of outs.
Proof.
  intros H. rewrite runs_of_app. generalize (runs_of outs).
  induction H as [|x o Hx _ IH]; intros acc; [done|].
  simpl. replace (runs_step acc x) with acc by (by destruct x). apply IH.
Qed.

Lemma counted_silent b b' outs o :
  counted b outs → Forall silent o →
  reconnectAttempts b' = reconnectAttempts b →
  maxReconnectAttempts b' = maxReconnectAttempts b →
  counted b' (outs ++ o).
Proof.
  unfold counted. intros (? & ? & ? & ?) Ho -> ->.
  rewrite runs_of_silent, scheduled_app, (scheduled_silent o) by done.
  by rewrite app_nil_r.
Qed.

Lemma counted_connected b outs :
  counted b outs → counted (fst (on_connected b)) (outs ++ snd (on_connected b)).
Proof.
  unfold counted. intros (Hr & Hcur & Hclosed & Hcap). simpl.
  rewrite runs_of_app. simpl. split; [lia|]. split; [done|].
  split; [|by rewrite scheduled_app, app_nil_r].
  apply Forall_app. split; [done|]. apply Forall_singleton.
  rewrite Hcur. apply ideal_backoff_run. lia.
Qed.

Lemma scheduleReconnect_full b :
  maxReconnectAttempts b ≤ reconnectAttempts b → scheduleReconnect b = (b, []).
Proof.
  intros H. unfold scheduleReconnect.
  destruct (Z.geb_spec (reconnectAttempts b) (maxReconnectAttempts b)); [done|lia].
Qed.

Lemma scheduleReconnect_outputs b :
  reconnectAttempts b < maxReconnectAttempts b →
  ∃ cleared t,
    Forall silent cleared ∧
    snd (scheduleReconnect b) = cleared ++ [OSchedule t (reconnectDelay (reconnectAttempts b))] ∧
    reconnectAttempts (fst (scheduleReconnect b)) = reconnectAttempts b + 1 ∧
    maxReconnectAttempts (fst (scheduleReconnect b)) = maxReconnectAttempts b.
Proof.
  intros H. unfold scheduleReconnect.
  destruct (Z.geb_spec (reconnectAttempts b) (maxReconnectAttempts b)); [lia|].
  simpl. eexists _, _. split; [|done].
  destruct (reconnectTimer b); repeat constructor.
Qed.

Lemma counted_scheduleReconnect b outs :
  counted b outs →
  counted (fst (scheduleReconnect b)) (outs ++ snd (scheduleReconnect b)).
Proof.
  intros HK. destruct (Z.le_gt_cases (maxReconnectAttempts b) (reconnectAttempts b)) as [Hfull|Hroom].
  - rewrite scheduleReconnect_full by done. simpl. by rewrite app_nil_r.
  - destruct (scheduleReconnect_outputs b Hroom) as (cleared & t & Hs & -> & Ha & Hm).
    destruct HK as (Hr & Hcur & Hclosed & Hcap). unfold counted.
    rewrite Ha, Hm. split; [lia|].
    rewrite app_assoc, runs_of_app, runs_of_silent by done. simpl.
    split; [|split; [done|]].
    + rewrite Hcur.
      replace (Z.to_nat (reconnectAttempts b + 1)) with (S (Z.to_nat (reconnectAttempts b))) by lia.
      rewrite ideal_snoc. by rewrite Z2Nat.id by lia.
    + rewrite !scheduled_app, (scheduled_silent cleared) by done.
      rewrite app_nil_r. apply Forall_app. split; [done|].
      apply Forall_singleton, reconnectDelay_le_cap.
Qed.

Lemma connect_silent thr b :
  Forall silent (snd (connect thr b)) ∧
  reconnectAttempts (fst (connect thr b)) = reconnectAttempts b ∧
  maxReconnectAttempts (fst (connect thr b)) = maxReconnectAttempts b.
Proof.
  unfold connect.
  destruct (connectionState b), (determineConnectionType (config b)), thr; simpl; auto.
Qed.

Lemma sendMessage_silent m b : Forall silent (sendMessage m b).
Proof.
  unfold sendMessage.
  destruct (connectionState b); try constructor.
  destruct (activeConnectionType b) as [[]|], (rtc b), (ws b); repeat constructor.
Qed.

Lemma handleMessage_silent queries m b :
  fst (handleMessage queries m b) = b ∧ Forall silent (snd (handleMessage queries m b)).
Proof.
  unfold handleMessage.
  match goal with |- context [match ?body with _ => _ end] => destruct body as [outs|] eqn:E end;
    simpl; [|by split].
  split; [done|].
  revert E. unfold Js.bind.
  repeat (match goal with
          | |- context [match ?x with _ => _ end] => destruct x eqn:?
          end; try discriminate);
    intros [= <-]; try apply sendMessage_silent; try constructor.
  all: unfold handleProgressUpdate; try (destruct (Js.truthy _)); repeat constructor.
Qed.

Lemma disconnect_silent b :
  Forall silent (snd (disconnect b)) ∧
  reconnectAttempts (fst (disconnect b)) = reconnectAttempts b ∧
  maxReconnectAttempts (fst (disconnect b)) = maxReconnectAttempts b.
Proof.
  unfold disconnect. simpl. split; [|done].
  destruct (reconnectTimer b), (rtc b), (ws b); repeat constructor.
Qed.

Lemma counted_step queries e b outs :
  counted b outs →
  counted (fst (step queries e b)) (outs ++ snd (step queries e b)).
Proof.
  intros HK. destruct e; simpl.
  - destruct (connect_silent wsCtorThrows b) as (? & ? & ?). by eapply counted_silent.
  - case_bool_decide; simpl; [|by rewrite app_nil_r].
    match goal with |- context [connect ?t ?x] => destruct (connect_silent t x) as (? & ? & ?) end.
    by eapply counted_silent.
  - by apply counted_connected.
  - apply (counted_scheduleReconnect (set_state DISCONNECTED b)). done.
  - unfold on_close. destruct wasClean; simpl.
    + by rewrite app_nil_r.
    + apply (counted_scheduleReconnect (set_state DISCONNECTED b)). done.
  - by rewrite app_nil_r.
  - by apply counted_connected.
  - apply (counted_scheduleReconnect (set_state DISCONNECTED b)). done.
  - destruct (disconnect_silent b) as (? & ? & ?). by eapply counted_silent.
  - destruct (handleMessage_silent queries m b) as [Hb Ho].
    eapply counted_silent; [done|done|by rewrite Hb..].
  - eapply counted_silent; [done|apply sendMessage_silent|done..].
Qed.

Lemma counted_exec queries es σ :
  counted (fst σ) (snd σ) →
  counted (fst (exec queries es σ)) (snd (exec queries es σ)).
Proof.
  revert σ. induction es as [|e es IH]; intros σ HK; simpl; [done|].
  destruct (step queries e (fst σ)) as [b' o] eqn:E.
  apply IH. simpl.
  pose proof (counted_step queries e _ _ HK) as H. by rewrite E in H.
Qed.

Lemma counted_new cfg :
  0 ≤ cfg_reconnectAttempts cfg → counted (new_Bridge cfg) [].
Proof. intros H. unfold counted. simpl. split; [lia|]. repeat split; constructor. Qed.

Lemma maxReconnectAttempts_step queries e b :
  maxReconnectAttempts (fst (step queries e b)) = maxReconnectAttempts b.
Proof.
  destruct e; simpl; try done.
  - apply connect_silent.
  - case_bool_decide; [|done].
    match goal with |- context [connect ?t ?x] => destruct (connect_silent t x) as (_ & _ & ->) end. done.
  - unfold on_failed, scheduleReconnect. simpl. by destruct (_ >=? _).
  - unfold on_close, scheduleReconnect. simpl. destruct wasClean; [done|]. by destruct (_ >=? _).
  - unfold on_failed, scheduleReconnect. simpl. by destruct (_ >=? _).
  - by destruct (handleMessage_silent queries m b) as [-> _].
Qed.

Lemma maxReconnectAttempts_exec queries es σ :
  maxReconnectAttempts (fst (exec queries es σ)) = maxReconnectAttempts (fst σ).
Proof.
  revert σ. induction es as [|e es IH]; intros σ; simpl; [done|].
  destruct (step queries e (fst σ)) as [b' o] eqn:E. rewrite IH. simpl.
  pose proof (maxReconnectAttempts_step queries e (fst σ)) as H. by rewrite E in H.
Qed.

Lemma full_step queries e b :
  maxReconnectAttempts b ≤ reconnectAttempts b → is_success e = false →
  scheduled (snd (step queries e b)) = [] ∧
  reconnectAttempts (fst (step queries e b)) = reconnectAttempts b.
Proof.
  intros Hfull He. destruct e; simpl in *; try discriminate.
  - destruct (connect_silent wsCtorThrows b) as (? & ? & ?). split; [by apply scheduled_silent|done].
  - case_bool_decide; simpl; [|done].
    match goal with |- context [connect ?t ?x] => destruct (connect_silent t x) as (? & ? & ?) end.
    split; [by apply scheduled_silent|done].
  - unfold on_failed. by rewrite scheduleReconnect_full.
  - unfold on_close. destruct wasClean; [done|]. by rewrite scheduleReconnect_full.
  - done.
  - unfold on_failed. by rewrite scheduleReconnect_full.
  - destruct (disconnect_silent b) as (? & ? & ?). split; [by apply scheduled_silent|done].
  - destruct (handleMessage_silent queries m b) as [-> ?]. split; [by apply scheduled_silent|done].
  - split; [apply scheduled_silent, sendMessage_silent|done].
Qed.

Lemma full_exec queries es σ :
  maxReconnectAttempts (fst σ) ≤ reconnectAttempts (fst σ) →
  forallb (fun e => negb (is_success e)) es = true →
  scheduled (snd (exec queries es σ)) = scheduled (snd σ).
Proof.
  revert σ. induction es as [|e es IH]; intros σ Hfull Hes; simpl in *; [done|].
  apply andb_prop in Hes as [He Hes]. apply negb_true_iff in He.
  destruct (full_step queries e (fst σ) Hfull He) as [Hs Ha].
  pose proof (maxReconnectAttempts_step queries e (fst σ)) as Hm.
  destruct (step queries e (fst σ)) as [b' o]. simpl in *.
  rewrite IH; simpl; [|lia|done].
  by rewrite scheduled_app, Hs, app_nil_r.
Qed.

(** C4. Whatever the events, the reconnect delays of every run of
    consecutive failures double from one second, never decrease and never
    exceed 30 seconds; the number of reconnects scheduled since the last
    successful connection is the counter, which never exceeds the configured
    ceiling; and once the counter is at the ceiling nothing more is scheduled
    for as long as no connection succeeds. *)
Theorem reconnect_backoff_bounded queries cfg es :
  0 ≤ cfg_reconnectAttempts cfg →
  let σ := exec queries es (new_Bridge cfg, []) in
  Forall (backoff_run (cfg_reconnectAttempts cfg)) (backoff_runs (snd σ)) ∧
  Forall (fun d => d ≤ 30000) (scheduled (snd σ)) ∧
  Z.of_nat (length (current_run (snd σ))) = reconnectAttempts (fst σ) ∧
  reconnectAttempts (fst σ) ≤ cfg_reconnectAttempts cfg ∧
  (cfg_reconnectAttempts cfg ≤ reconnectAttempts (fst σ) →
   ∀ es', forallb (fun e => negb (is_success e)) es' = true →
     scheduled (snd (exec queries es' σ)) = scheduled (snd σ)).
Proof.
  intros Hmax σ.
  pose proof (counted_exec queries es (new_Bridge cfg, []) (counted_new cfg Hmax)) as HK.
  pose proof (maxReconnectAttempts_exec queries es (new_Bridge cfg, [])) as Hm.
  fold σ in HK, Hm. simpl in Hm. destruct HK as (Hr & Hcur & Hclosed & Hcap).
  rewrite Hm in Hr, Hclosed.
  split.
  { unfold backoff_runs. apply Forall_app. split; [done|]. apply Forall_singleton.
    rewrite Hcur. apply ideal_backoff_run. lia. }
  split; [done|].
  split; [by rewrite <- (Z2Nat.id (reconnectAttempts (fst σ))) by lia;
            unfold current_run; rewrite Hcur, ideal_length|].
  split; [lia|].
  intros Hfull es' Hes'. apply full_exec; [lia|done].
Qed.

Definition no_queries : Js.JsValue -> QueryEntry := fun _ => NoEntry.

Definition two_attempts : BridgeConfig :=
  {| cfg_reconnectAttempts := 2; cfg_connectionType := None; cfg_pageIsHttps := false |}.

Lemma reconnect_backoff_bounded_witness :
  let σ := exec no_queries [EConnect false; EWsError; EWsClose false]
                (new_Bridge two_attempts, []) in
  scheduled (snd σ) = [1000; 2000] ∧
  Forall (backoff_run 2) (backoff_runs (snd σ)) ∧
  scheduled (snd (exec no_queries [ETimer 3 false; EWsError; EWsClose false] σ))
    = [1000; 2000].
Proof.
  destruct (reconnect_backoff_bounded no_queries two_attempts
              [EConnect false; EWsError; EWsClose false])
    as (H1 & _ & _ & _ & H5); [simpl; lia|].
  split; [reflexivity|]. split; [exact H1|].
  apply H5; [simpl; lia|reflexivity].
Defined.

(** *** Clean closes *)








Lemma connect_timers thr b :
  reconnectTimer (fst (connect thr b)) = reconnectTimer b ∧
  pendingTimers (fst (connect thr b)) = pendingTimers b.
Proof.
  unfold connect.
  destruct (connectionState b), (determineConnectionType (config b)), thr; simpl; auto.
Qed.








End BridgeReconnect.

(** ** Queries for methods without a handler *)

Module BridgeQueries.

Import SocketBridge.

(** The transport [sendMessage] writes to, if there is one. *)
Definition active_transport (b : Bridge) : option Transport :=
  match activeConnectionType b, rtc b, ws b with
  | Some webrtc, Some _, _ => Some webrtc
  | Some websocket, _, Some _ => Some websocket
  | _, _, _ => None
  end.


Lemma get_total v k x k' : Js.get v k = Js.Normal x → ∃ y, Js.get v k' = Js.Normal y.
Proof.
  destruct v; simpl; try discriminate; intros _; eauto.
  - destruct (String.eqb k' "length"); eauto. destruct (Js.index_of_key _ _); eauto.
  - destruct (String.eqb k' "length"); eauto. destruct (Js.index_of_key _ _); eauto.
Qed.






End BridgeQueries.

(** ** Connecting to the backend *)

Module SupervisorConnect.

Import Js BackendClient.

(** The message of the terminal error of [connectWithRetry]. *)
Definition terminal_message (cause : Thrown) : string :=
  String.append "Unable to connect to Foundry MCP backend after 40 attempts: "
                (errorMessage cause).

(** Number of the first retry that connects, among [n] retries starting
    with retry [a]. *)
Fixpoint first_ok (conn : nat -> ConnectResult) (a n : nat) : option nat :=
  match n with
  | O => None
  | S n' =>
      match conn (S a) with
      | ConnOk => Some O
      | ConnFail _ => S <$> first_ok conn (S a) n'
      end
  end.

Definition iterations (conn : nat -> ConnectResult) (a n : nat) : nat :=
  match first_ok conn a n with
  | Some j => S j
  | None => n
  end.








(** What a call leaves alone. *)
Definition same_calls (c c' : Client) : Prop :=
  pending c' = pending c ∧ settled c' = settled c ∧ nextCall c' = nextCall c ∧
  exited c' = exited c ∧ buffer c' = buffer c ∧ wire c' = wire c.

Lemma same_calls_refl c : same_calls c c.
Proof. by repeat split. Qed.

Lemma same_calls_trans c1 c2 c3 : same_calls c1 c2 → same_calls c2 c3 → same_calls c1 c3.
Proof. unfold same_calls. intros (?&?&?&?&?&?) (?&?&?&?&?&?). repeat split; congruence. Qed.

Lemma retryLoop_spec conn n : ∀ a last c,
  let r := retryLoop conn n a last c in
  same_calls c (fst r) ∧
  waits (fst r) = waits c ++ map delayMs (seq a (iterations conn a n)) ∧
  connects (fst r) = (connects c + iterations conn a n)%nat ∧
  match first_ok conn a n with
  | Some j =>
      snd r = Normal tt ∧ conn (S (a + j)) = ConnOk ∧
      (∀ i, (i < j)%nat → conn (S (a + i)) ≠ ConnOk) ∧
      ∃ s, socket (fst r) = Some s ∧ destroyed s = false
  | None =>
      (∀ i, (i < n)%nat → conn (S (a + i)) ≠ ConnOk) ∧
      ∃ cause,
        snd r = Throw (ErrorObj (terminal_message cause)) ∧
        match n with
        | O => cause = last
        | S n' => conn (S (a + n')) = ConnFail cause
        end
  end.
Proof.
  induction n as [|n IH]; intros a last c.
  - unfold iterations. simpl. split; [apply same_calls_refl|]. split; [by rewrite app_nil_r|].
    split; [lia|]. split; [lia|]. exists last. split; [|done].
    unfold terminal_message. do 2 f_equal.
  - cbn [retryLoop first_ok]. unfold iterations. cbn [first_ok].
    destruct (conn (S a)) as [|e] eqn:E.
    + simpl. split; [by repeat split|]. split; [done|]. split; [lia|].
      rewrite Nat.add_0_r. split; [done|]. split; [done|]. split; [lia|]. eauto.
    + cbn [connect].
      set (c2 := log "connectWithRetry(): retry failed"
                   (log "connect(): error" (count_connect (sleep (delayMs a) c)))).
      change (retryLoop conn (S n) a last c) with (retryLoop conn (S n) a last c).
      specialize (IH (S a) e c2). simpl in IH.
      destruct IH as (Hsame & Hw & Hc & Hres).
      unfold iterations in Hw, Hc.
      split. { eapply same_calls_trans; [|exact Hsame]. by repeat split. }
      destruct (first_ok conn (S a) n) as [j|] eqn:F; simpl.
      * split. { rewrite Hw. simpl. by rewrite <- app_assoc. }
        split. { rewrite Hc. simpl. lia. }
        destruct Hres as (Hr & Hj & Hbefore & Hsock).
        split; [done|]. split; [by rewrite <- Nat.add_succ_comm|].
        split; [|done]. intros i Hi. destruct i as [|i].
        -- rewrite Nat.add_0_r, E. discriminate.
        -- rewrite <- Nat.add_succ_comm. apply Hbefore. lia.
      * split. { rewrite Hw. simpl. by rewrite <- app_assoc. }
        split. { rewrite Hc. simpl. lia. }
        destruct Hres as (Hall & cause & Hr & Hcause).
        split.
        { intros i Hi. destruct i as [|i].
          - rewrite Nat.add_0_r, E. discriminate.
          - rewrite <- Nat.add_succ_comm. apply Hall. lia. }
        exists cause. split; [done|].
        destruct n as [|n'].
        -- subst cause. by rewrite Nat.add_0_r.
        -- by rewrite <- Nat.add_succ_comm.
Qed.







(** *** The exit of the backend process *)

(** C7 as stated fails for a backend ended by a signal: the listener then
    receives the code [null], which the guard [code !== null] excludes, and
    nothing is written to the log. *)
Lemma signal_exit_is_not_logged :
  let c := startBackend new_BackendClient in
  exited c = None ∧
  logs (on_backend_exit None c) = logs c ∧
  ¬ (∃ line, logs (on_backend_exit None c) = logs c ++ [line]).
Proof.
  split; [reflexivity|]. split; [reflexivity|].
  intros [line H]. vm_compute in H. discriminate.
Qed.

Lemma retryLoop_backend conn n : ∀ a last c,
  backendProcess (fst (retryLoop conn n a last c)) = backendProcess c.
Proof.
  induction n as [|n IH]; intros a last c; [done|].
  cbn [retryLoop]. destruct (conn (S a)); [done|].
  cbn [connect]. by rewrite IH.
Qed.

Lemma step_exited JSON_parse e c : exited c ≠ None → step JSON_parse e c = c.
Proof. unfold step. by destruct (exited c). Qed.

Lemma run_exited JSON_parse es c : exited c ≠ None → run JSON_parse es c = c.
Proof.
  intros H. induction es as [|e es IH]; [done|].
  unfold run in *. simpl. by rewrite step_exited.
Qed.

(** C7, amended. A backend exit with code 0 makes the supervisor call
    [process.exit(0)] at once, after which nothing runs: no retry, no
    respawn.  A non-zero code is logged and the supervisor keeps running; an
    exit by signal (code [null]) is not logged and the supervisor keeps
    running.  In both cases the child reference is cleared and nothing is
    spawned until a later [ensure] fails to connect directly and starts the
    backend again. *)
Theorem backend_exit_handling JSON_parse c code :
  exited c = None →
  let c' := step JSON_parse (EBackendExit code) c in
  backendProcess c' = None ∧ connects c' = connects c ∧
  (code = Some 0 →
     exited c' = Some 0 ∧ ∀ es, run JSON_parse es c' = c') ∧
  (∀ n, code = Some n → n ≠ 0 →
     exited c' = None ∧
     logs c' = logs c ++ ["startBackend(): backend exited unexpectedly"]) ∧
  (code = None → exited c' = None ∧ logs c' = logs c) ∧
  (code ≠ Some 0 → ∀ conn e0, socket c' = None → conn O = ConnFail e0 →
     ∃ p, backendProcess (fst (ensure conn c')) = Some p ∧ killed p = false).
Proof.
  intros Hrun c'. subst c'. unfold step. rewrite Hrun.
  split; [by destruct code as [[]|]|]. split; [by destruct code as [[]|]|].
  split; [|split; [|split]].
  - intros ->. simpl. split; [done|]. intros es. by apply run_exited.
  - intros n -> Hn. by destruct n.
  - by intros ->.
  - intros Hcode conn e0 Hsock H0. unfold ensure. rewrite Hsock.
    unfold connectWithRetry. rewrite H0. cbn [connect].
    rewrite retryLoop_backend. simpl. eauto.
Qed.

Lemma backend_exit_handling_witness :
  let c := startBackend new_BackendClient in
  exited (on_backend_exit (Some 0) c) = Some 0 ∧
  logs (on_backend_exit (Some 1) c) =
    ["startBackend(): spawning"; "startBackend(): backend exited unexpectedly"] ∧
  logs (on_backend_exit None c) = ["startBackend(): spawning"].
Proof.
  intros c.
  pose proof (backend_exit_handling (fun _ => Throw NonError) c (Some 0) eq_refl)
    as (_ & _ & H0 & _).
  pose proof (backend_exit_handling (fun _ => Throw NonError) c (Some 1) eq_refl)
    as (_ & _ & _ & H1 & _).
  pose proof (backend_exit_handling (fun _ => Throw NonError) c None eq_refl)
    as (_ & _ & _ & _ & H2 & _).
  split; [exact (proj1 (H0 eq_refl))|].
  split; [exact (proj2 (H1 1 eq_refl ltac:(discriminate)))|].
  exact (proj2 (H2 eq_refl)).
Defined.

End SupervisorConnect.

(** ** Polling the external service *)

Module StatusPoll.

Import Js ComfyUIClient.









Definition empty_history : HttpResult := HttpOk (JObj []).

Definition queue_with (running pending : list JsValue) : HttpResult :=
  HttpOk (JObj [("queue_running", JArr running); ("queue_pending", JArr pending)]).

Definition queue_item (promptId : string) (steps : Z) : JsValue :=
  JArr [JNum 0; JStr promptId;
        JObj [("5", JObj [("inputs", JObj [("steps", JNum steps)])])]].

Example poll_complete :
  getJobStatusWithProgress "p1" (HttpOk (JObj [("p1", JObj [])])) (HttpFail NonError) (1 # 2)
  = Normal (only complete).
Proof. reflexivity. Qed.

Example poll_running :
  getJobStatusWithProgress "p1" empty_history (queue_with [queue_item "p1" 20] []) (1 # 2)
  = Normal {| status := running;
              progress := Some {| currentStep := Finite 11; totalSteps := JNum 20;
                                  estimatedTimeRemaining := Finite 162 |} |}.
Proof. reflexivity. Qed.

Example poll_queued :
  getJobStatusWithProgress "p1" empty_history
    (queue_with [queue_item "p0" 8] [queue_item "p1" 8]) 0
  = Normal (only queued).
Proof. reflexivity. Qed.

Example poll_malformed_queue :
  getJobStatusWithProgress "p1" empty_history (queue_with [] [JNull; queue_item "p1" 8]) 0
  = Normal (only failed).
Proof. reflexivity. Qed.

(** The step reported for a running job is drawn at random on every poll:
    a later poll may report an earlier step. *)
Example poll_step_can_decrease :
  getJobStatusWithProgress "p1" empty_history (queue_with [queue_item "p1" 8] []) (9 # 10)
    = Normal {| status := running;
                progress := Some {| currentStep := Finite 8; totalSteps := JNum 8;
                                    estimatedTimeRemaining := Finite 0 |} |} ∧
  getJobStatusWithProgress "p1" empty_history (queue_with [queue_item "p1" 8] []) (1 # 10)
    = Normal {| status := running;
                progress := Some {| currentStep := Finite 1; totalSteps := JNum 8;
                                    estimatedTimeRemaining := Finite 126 |} |}.
Proof. split; reflexivity. Qed.


End StatusPoll.

(** ** Requests multiplexed over the backend socket *)

Module Multiplexing.

Import Js BackendClient.

(** The complete, trimmed, non-empty lines of a receive buffer, and what is
    left after the last newline: what the loop of [onData] works through. *)
Fixpoint frames_fuel (fuel : nat) (s : string) : list string * string :=
  match fuel with
  | O => ([], s)
  | S fuel' =>
      match indexOf newline s with
      | None => ([], s)
      | Some idx =>
          let line := trim (slice_to idx s) in
          let r := frames_fuel fuel' (slice_from (S idx) s) in
          (if String.eqb line "" then fst r else line :: fst r, snd r)
      end
  end.

Definition frames_in (s : string) : list string * string :=
  frames_fuel (String.length s) s.

Section Frames.

Variable JSON_parse : string -> Exc JsValue.

(** The id a line answers, when it parses to a frame with a string id. *)
Definition frame_id (line : string) : option string :=
  match parse_response JSON_parse line with
  | Normal (JStr s, _, _) => Some s
  | _ => None
  end.

(** The settlements of one promise. *)
Definition settlements (h : nat) (c : Client) : list (nat * Outcome) :=
  filter (fun p => fst p = h) (settled c).

(** The events that can take the request registered under [id] out of the
    pending table of [c]: a [send] that draws the same id, a chunk that
    completes a frame with that id, the loss of the connection. *)
Definition disturbs (id : string) (e : Event) (c : Client) : Prop :=
  match e with
  | ESend id' _ _ _ _ => id' = id
  | EData chunk =>
      Exists (fun l => frame_id l = Some id)
             (fst (frames_in (String.append (buffer c) chunk)))
  | ESocketError _ | ESocketClose => True
  | EBackendExit _ | ECleanup => False
  end.

(** The error a socket event rejects the pending requests with. *)
Definition lost_with (e : Event) : option Thrown :=
  match e with
  | ESocketError err => Some err
  | ESocketClose => Some (ErrorObj "Backend disconnected")
  | _ => None
  end.

Local Abbreviation process := (fun c l => process_line JSON_parse l c).

(** *** The receive loop *)

Lemma set_buffer_id c : set_buffer (buffer c) c = c.
Proof. by destruct c. Qed.

Lemma process_line_buffer l s c :
  process_line JSON_parse l (set_buffer s c) = set_buffer s (process_line JSON_parse l c).
Proof.
  unfold process_line.
  destruct (parse_response JSON_parse l) as [[[id error] result]|]; [|done].
  simpl. destruct (pending_get id (pending c)) as [[key h]|]; [|done].
  by destruct (frame_outcome error result).
Qed.

Lemma foldl_process_buffer ls : ∀ s c,
  foldl process (set_buffer s c) ls = set_buffer s (foldl process c ls).
Proof.
  induction ls as [|l ls IH]; intros s c; simpl; [done|].
  by rewrite process_line_buffer, IH.
Qed.

Lemma onData_loop_frames fuel : ∀ c,
  onData_loop JSON_parse fuel c =
  set_buffer (snd (frames_fuel fuel (buffer c)))
             (foldl process c (fst (frames_fuel fuel (buffer c)))).
Proof.
  induction fuel as [|fuel IH]; intros c; simpl.
  - by rewrite set_buffer_id.
  - destruct (indexOf newline (buffer c)) as [idx|]; simpl; [|by rewrite set_buffer_id].
    destruct (String.eqb _ "") eqn:E; rewrite IH.
    + simpl. by rewrite foldl_process_buffer.
    + rewrite process_line_buffer. simpl. by rewrite foldl_process_buffer.
Qed.

Lemma onData_frames chunk c :
  onData JSON_parse chunk c =
  set_buffer (snd (frames_in (String.append (buffer c) chunk)))
             (foldl process c (fst (frames_in (String.append (buffer c) chunk)))).
Proof.
  unfold onData, frames_in. rewrite onData_loop_frames. simpl.
  by rewrite foldl_process_buffer.
Qed.

Lemma indexOf_lt ch s idx : indexOf ch s = Some idx → (idx < String.length s)%nat.
Proof.
  revert idx. induction s as [|a s IH]; intros idx; simpl; [discriminate|].
  destruct (Ascii.eqb a ch); [intros [= <-]; lia|].
  destruct (indexOf ch s) as [i|]; simpl; [|discriminate].
  intros [= <-]. specialize (IH i eq_refl). lia.
Qed.

Lemma slice_from_length n s :
  String.length (slice_from n s) = (String.length s - n)%nat.
Proof.
  revert s. induction n as [|n IH]; intros s; simpl; [lia|].
  destruct s; simpl; [done|apply IH].
Qed.

(** The loop stops because no newline is left, not because the bound on
    its iterations is reached. *)
Lemma frames_fuel_drained fuel : ∀ s,
  (String.length s ≤ fuel)%nat → indexOf newline (snd (frames_fuel fuel s)) = None.
Proof.
  induction fuel as [|fuel IH]; intros s Hlen; cbn [frames_fuel].
  - destruct s; [done|simpl in Hlen; lia].
  - destruct (indexOf newline s) as [idx|] eqn:E; cbn [snd]; [|done].
    apply IH. rewrite slice_from_length. apply indexOf_lt in E. lia.
Qed.

Lemma onData_drained chunk c :
  indexOf newline (buffer (onData JSON_parse chunk c)) = None.
Proof.
  rewrite onData_frames. simpl. by apply frames_fuel_drained.
Qed.

(** *** The invariant of the pending table *)

(** Pending promises were created by earlier calls, are not settled yet and
    are registered under one id only; no promise was settled twice. *)
Record Inv (c : Client) : Prop := {
  inv_fresh : ∀ id h, pending c !! id = Some h → (h < nextCall c)%nat;
  inv_unsettled : ∀ id h, pending c !! id = Some h → h ∉ (settled c).*1;
  inv_inj : ∀ i j h, pending c !! i = Some h → pending c !! j = Some h → i = j;
  inv_once : NoDup (settled c).*1;
  inv_bound : ∀ h, h ∈ (settled c).*1 → (h < nextCall c)%nat
}.

Lemma Inv_new : Inv new_BackendClient.
Proof.
  split; simpl.
  - intros id h. by rewrite lookup_empty.
  - intros id h. by rewrite lookup_empty.
  - intros i j h. by rewrite lookup_empty.
  - constructor.
  - intros h Hh. by apply elem_of_nil in Hh.
Qed.

Lemma Inv_same c c' :
  Inv c → pending c' = pending c → settled c' = settled c →
  nextCall c' = nextCall c → Inv c'.
Proof.
  intros [] Hp Hs Hn. split; rewrite ?Hp, ?Hs, ?Hn; auto.
Qed.

(** Answering the request registered under [key]. *)
Lemma Inv_answer c c' key h o :
  Inv c → pending c !! key = Some h →
  pending c' = delete key (pending c) →
  settled c' = settled c ++ [(h, o)] →
  nextCall c' = nextCall c →
  Inv c'.
Proof.
  intros [Hf Hu Hi Ho Hb] Hk Hp Hs Hn. split; rewrite ?Hp, ?Hs, ?Hn.
  - intros id h' [_ H]%lookup_delete_Some. eauto.
  - intros id h' [Hne H]%lookup_delete_Some.
    rewrite fmap_app. intros [Hin|Hin%list_elem_of_singleton]%elem_of_app.
    + by eapply Hu.
    + simpl in Hin. subst h'. apply Hne. by eapply Hi.
  - intros i j h' [_ H1]%lookup_delete_Some [_ H2]%lookup_delete_Some. eauto.
  - rewrite fmap_app. apply NoDup_app. split; [done|]. split.
    + intros x Hx Hx'%list_elem_of_singleton. simpl in Hx'. subst x. by eapply Hu.
    + apply NoDup_singleton.
  - intros h'. rewrite fmap_app.
    intros [Hin|Hin%list_elem_of_singleton]%elem_of_app; [eauto|].
    simpl in Hin. subst h'. eauto.
Qed.

Lemma pending_get_Some id p key h :
  pending_get id p = Some (key, h) → id = JStr key ∧ p !! key = Some h.
Proof.
  destruct id; simpl; try discriminate.
  destruct (p !! s) eqn:E; simpl; [|discriminate]. by intros [= <- <-].
Qed.

(** What one line does to the tables. *)
Inductive LineEffect (l : string) (c c' : Client) : Prop :=
| line_dropped :
    pending c' = pending c → settled c' = settled c →
    (∀ key, frame_id l = Some key → pending c !! key = None) →
    LineEffect l c c'
| line_answered key h error result o :
    parse_response JSON_parse l = Normal (JStr key, error, result) →
    frame_outcome error result = Normal o →
    pending c !! key = Some h →
    pending c' = delete key (pending c) →
    settled c' = settled c ++ [(h, o)] →
    LineEffect l c c'.

Lemma get_truthy v k : truthy v = true → ∃ x, get v k = Normal x.
Proof.
  destruct v; intros H; try discriminate H; unfold get; eauto.
  - destruct (String.eqb k "length"); eauto. destruct (index_of_key _ _); eauto.
  - destruct (String.eqb k "length"); eauto. destruct (index_of_key _ _); eauto.
Qed.

Lemma frame_outcome_total error result : ∃ o, frame_outcome error result = Normal o.
Proof.
  unfold frame_outcome. destruct (truthy error) eqn:E; [|eauto].
  destruct (get_truthy error "message" E) as [m ->]. simpl. eauto.
Qed.

Lemma process_line_effect l c :
  LineEffect l c (process_line JSON_parse l c).
Proof.
  unfold process_line, frame_id.
  destruct (parse_response JSON_parse l) as [[[id error] result]|] eqn:P.
  - destruct (pending_get id (pending (log "onData(): received response" c)))
      as [[key h]|] eqn:G.
    + apply pending_get_Some in G as [-> G]. simpl in G.
      destruct (frame_outcome_total error result) as [o Ho]. rewrite Ho.
      by eapply line_answered.
    + apply line_dropped; [done..|].
      intros key Hk. unfold frame_id in Hk. rewrite P in Hk.
      destruct id; try discriminate. injection Hk as ->.
      simpl in G. by destruct (pending c !! key).
  - apply line_dropped; [done..|]. intros key Hk.
    unfold frame_id in Hk. by rewrite P in Hk.
Qed.

Lemma process_line_frame l c :
  socket (process_line JSON_parse l c) = socket c ∧
  nextCall (process_line JSON_parse l c) = nextCall c ∧
  exited (process_line JSON_parse l c) = exited c ∧
  connects (process_line JSON_parse l c) = connects c.
Proof.
  unfold process_line.
  destruct (parse_response JSON_parse l) as [[[id error] result]|]; [|done].
  destruct (pending_get id _) as [[key h]|]; [|done].
  by destruct (frame_outcome error result).
Qed.

Lemma Inv_process_line l c : Inv c → Inv (process_line JSON_parse l c).
Proof.
  intros HI. destruct (process_line_frame l c) as (_ & Hn & _).
  destruct (process_line_effect l c) as [Hp Hs _|key h error result o _ _ Hk Hp Hs].
  - destruct HI. split; rewrite ?Hp, ?Hs, ?Hn; auto.
  - by eapply Inv_answer.
Qed.

Lemma Inv_frames ls : ∀ c, Inv c → Inv (foldl process c ls).
Proof.
  induction ls as [|l ls IH]; intros c HI; simpl; [done|].
  by apply IH, Inv_process_line.
Qed.

Lemma Inv_set_buffer s c : Inv c → Inv (set_buffer s c).
Proof. by intros []. Qed.

Lemma Inv_onData chunk c : Inv c → Inv (onData JSON_parse chunk c).
Proof. intros HI. rewrite onData_frames. by apply Inv_set_buffer, Inv_frames. Qed.

(** *** Losing the connection *)

Lemma reject_each err l : ∀ c,
  let c' := foldl (fun acc p => settle (snd p) (Rejected err) acc) c l in
  settled c' = settled c ++ map (fun p : string * nat => (snd p, Rejected err)) l ∧
  pending c' = pending c ∧ nextCall c' = nextCall c ∧ connects c' = connects c ∧
  exited c' = exited c ∧ logs c' = logs c.
Proof.
  induction l as [|p l IH]; intros c; simpl.
  - by rewrite app_nil_r.
  - destruct (IH (settle (snd p) (Rejected err) c)) as (-> & -> & -> & -> & -> & ->).
    simpl. by rewrite <- app_assoc.
Qed.

Lemma rejectAll_settled err c :
  settled (rejectAll err c) =
  settled c ++ map (fun p : string * nat => (snd p, Rejected err)) (map_to_list (pending c)).
Proof. unfold rejectAll. simpl. apply reject_each. Qed.

Lemma rejectAll_fields err c :
  pending (rejectAll err c) = ∅ ∧ socket (rejectAll err c) = None ∧
  nextCall (rejectAll err c) = nextCall c ∧ connects (rejectAll err c) = connects c ∧
  exited (rejectAll err c) = exited c.
Proof.
  unfold rejectAll. simpl.
  destruct (reject_each err (map_to_list (pending c)) c) as (_ & _ & -> & -> & -> & _).
  done.
Qed.

Lemma pending_handles_NoDup c : Inv c → NoDup ((map_to_list (pending c)).*2).
Proof.
  intros HI. apply NoDup_fmap_2_strong; [|apply NoDup_map_to_list].
  intros [i h] [j h'] Hi Hj Heq. simpl in Heq. subst h'.
  apply elem_of_map_to_list in Hi, Hj.
  by rewrite (inv_inj c HI i j h Hi Hj).
Qed.

Lemma rejected_handles err (l : list (string * nat)) :
  (map (fun p : string * nat => (snd p, Rejected err)) l).*1 = l.*2.
Proof. induction l as [|p l IH]; [done|]. cbn. by f_equal. Qed.

Lemma Inv_rejectAll err c : Inv c → Inv (rejectAll err c).
Proof.
  intros HI. destruct (rejectAll_fields err c) as (Hp & _ & Hn & _).
  split; rewrite ?Hp, ?Hn, ?rejectAll_settled.
  - intros id h. by rewrite lookup_empty.
  - intros id h. by rewrite lookup_empty.
  - intros i j h. by rewrite lookup_empty.
  - rewrite fmap_app, rejected_handles. apply NoDup_app.
    split; [apply (inv_once c HI)|]. split; [|by apply pending_handles_NoDup].
    intros h Hs Hin. apply list_elem_of_fmap in Hin as ([i h'] & -> & Hin).
    apply elem_of_map_to_list in Hin. by eapply (inv_unsettled c HI).
  - intros h. rewrite fmap_app, rejected_handles.
    intros [Hin|Hin]%elem_of_app; [by apply (inv_bound c HI)|].
    apply list_elem_of_fmap in Hin as ([i h'] & -> & Hin).
    apply elem_of_map_to_list in Hin. by eapply (inv_fresh c HI).
Qed.

(** *** Sending *)

Lemma connectWithRetry_same conn c :
  SupervisorConnect.same_calls c (fst (connectWithRetry conn c)).
Proof.
  unfold connectWithRetry. destruct (conn O) as [|e]; [by repeat split|].
  cbn [connect].
  match goal with |- context [retryLoop conn ?n ?a ?l ?x] =>
    destruct (SupervisorConnect.retryLoop_spec conn n a l x) as (H & _) end.
  eapply SupervisorConnect.same_calls_trans; [|exact H]. by repeat split.
Qed.

Lemma ensure_same conn c : SupervisorConnect.same_calls c (fst (ensure conn c)).
Proof.
  unfold ensure.
  destruct (socket c) as [s|]; [destruct (destroyed s)|];
    try apply SupervisorConnect.same_calls_refl.
  - eapply SupervisorConnect.same_calls_trans; [|apply connectWithRetry_same]. by repeat split.
  - eapply SupervisorConnect.same_calls_trans; [|apply connectWithRetry_same]. by repeat split.
Qed.

(** The three ways a [send] ends. *)
Inductive SendEffect (id : string) (c c' : Client) : Prop :=
| send_registered :
    pending c' = <[id := nextCall c]> (pending c) → settled c' = settled c →
    SendEffect id c c'
| send_unconnected e :
    pending c' = pending c → settled c' = settled c ++ [(nextCall c, Rejected e)] →
    SendEffect id c c'
| send_unwritten e :
    pending c' = delete id (pending c) →
    settled c' = settled c ++ [(nextCall c, Rejected e)] →
    SendEffect id c c'.

Lemma send_effect id method params conn w c :
  SendEffect id c (send id method params conn w c) ∧
  nextCall (send id method params conn w c) = S (nextCall c) ∧
  exited (send id method params conn w c) = exited c.
Proof.
  unfold send.
  destruct (ensure_same conn (new_call c)) as (Hp & Hs & Hn & Hx & _).
  destruct (ensure conn (new_call c)) as [c1 [[]|e]]; simpl in *.
  - destruct (socket c1) as [s|]; [destruct w as [e|]|]; simpl;
      rewrite ?Hp, ?Hs, ?Hn, ?Hx.
    + split; [|done]. eapply send_unwritten; simpl; rewrite ?Hp, ?Hs; [|done].
      by rewrite delete_insert_eq.
    + split; [|done]. by apply send_registered; simpl; rewrite ?Hp, ?Hs.
    + split; [|done]. eapply send_unwritten; simpl; rewrite ?Hp, ?Hs; [|done].
      by rewrite delete_insert_eq.
  - rewrite Hn, Hx. split; [|done]. by eapply send_unconnected; simpl; rewrite ?Hp, ?Hs.
Qed.

Lemma Inv_settle_new c c' o :
  Inv c → pending c' ⊆ pending c →
  settled c' = settled c ++ [(nextCall c, o)] → nextCall c' = S (nextCall c) →
  Inv c'.
Proof.
  intros [Hf Hu Hi Ho Hb] Hp Hs Hn.
  assert (Hsub : ∀ id h, pending c' !! id = Some h → pending c !! id = Some h).
  { intros id h H. by eapply lookup_weaken. }
  split; rewrite ?Hs, ?Hn, ?fmap_app.
  - intros id h H%Hsub. apply Hf in H. lia.
  - intros id h H%Hsub [Hin|Hin%list_elem_of_singleton]%elem_of_app.
    + by eapply Hu.
    + simpl in Hin. subst h. apply Hf in H. lia.
  - intros i j h H1%Hsub H2%Hsub. eauto.
  - apply NoDup_app. split; [done|]. split; [|apply NoDup_singleton].
    intros h Hin Hin'%list_elem_of_singleton. simpl in Hin'. subst h.
    apply Hb in Hin. lia.
  - intros h [Hin|Hin%list_elem_of_singleton]%elem_of_app.
    + apply Hb in Hin. lia.
    + simpl in Hin. subst h. lia.
Qed.

Lemma Inv_send id method params conn w c :
  Inv c → Inv (send id method params conn w c).
Proof.
  intros HI. destruct (send_effect id method params conn w c) as (He & Hn & _).
  destruct He as [Hp Hs|e Hp Hs|e Hp Hs].
  - destruct HI as [Hf Hu Hi Ho Hb]. split; rewrite ?Hp, ?Hs, ?Hn.
    + intros i h. rewrite lookup_insert. case_decide; [intros [= <-]; lia|].
      intros Hl%Hf. lia.
    + intros i h. rewrite lookup_insert. case_decide.
      * intros [= <-] Hin%Hb. lia.
      * apply Hu.
    + intros i j h. rewrite !lookup_insert. repeat case_decide; subst; try done.
      * intros [= <-] Hl%Hf. lia.
      * intros Hl%Hf [= <-]. lia.
      * apply Hi.
    + done.
    + intros h Hl%Hb. lia.
  - eapply Inv_settle_new; [done| |done..]. by rewrite Hp.
  - eapply Inv_settle_new; [done| |done..]. rewrite Hp. apply delete_subseteq.
Qed.

Lemma Inv_step e c : Inv c → Inv (step JSON_parse e c).
Proof.
  intros HI. unfold step. destruct (exited c); [done|]. destruct e.
  - by apply Inv_send.
  - by apply Inv_onData.
  - apply Inv_rejectAll. by eapply Inv_same.
  - by apply Inv_rejectAll.
  - eapply Inv_same; [done|..]; by destruct code as [[]|].
  - eapply Inv_same; [done|..]; unfold cleanup; simpl;
      (destruct (backendProcess c) as [p|]; [destruct (killed p)|]); simpl;
      (destruct (socket c) as [s|]; [destruct (destroyed s)|]); done.
Qed.

Lemma Inv_run es : ∀ c, Inv c → Inv (run JSON_parse es c).
Proof.
  induction es as [|e es IH]; intros c HI; [done|].
  apply IH. by apply Inv_step.
Qed.

(** *** Settlements only accumulate *)

Lemma process_line_grows l c :
  settled c `prefix_of` settled (process_line JSON_parse l c) ∧
  pending (process_line JSON_parse l c) ⊆ pending c.
Proof.
  destruct (process_line_effect l c) as [Hp Hs _|key h error result o _ _ Hk Hp Hs].
  - by rewrite Hp, Hs.
  - rewrite Hp, Hs. split; [by eexists|apply delete_subseteq].
Qed.

Lemma frames_grow ls : ∀ c,
  settled c `prefix_of` settled (foldl process c ls) ∧
  pending (foldl process c ls) ⊆ pending c.
Proof.
  induction ls as [|l ls IH]; intros c; simpl; [done|].
  destruct (process_line_grows l c) as [H1 H2].
  destruct (IH (process_line JSON_parse l c)) as [H3 H4].
  split; [by etrans|by etrans].
Qed.

Lemma step_grows e c : settled c `prefix_of` settled (step JSON_parse e c).
Proof.
  unfold step. destruct (exited c); [done|]. destruct e.
  - destruct (send_effect id method params conn writeThrows c) as ([Hp Hs|x Hp Hs|x Hp Hs] & _);
      rewrite Hs; [done|by eexists..].
  - rewrite onData_frames. simpl. apply frames_grow.
  - rewrite rejectAll_settled. simpl. by eexists.
  - rewrite rejectAll_settled. by eexists.
  - by destruct code as [[]|].
  - unfold cleanup. simpl.
    destruct (backendProcess c) as [p|]; [destruct (killed p)|]; simpl;
      (destruct (socket c) as [s|]; [destruct (destroyed s)|]); done.
Qed.

Lemma run_grows es : ∀ c, settled c `prefix_of` settled (run JSON_parse es c).
Proof.
  induction es as [|e es IH]; intros c; [done|].
  etrans; [apply (step_grows e)|apply IH].
Qed.

Lemma filter_handle_absent h (l : list (nat * Outcome)) :
  h ∉ l.*1 → filter (fun p => fst p = h) l = [].
Proof.
  induction l as [|p l IH]; intros Hh; [done|].
  rewrite fmap_cons, not_elem_of_cons in Hh. destruct Hh as [Hne Hh].
  rewrite filter_cons. case_decide; [congruence|by apply IH].
Qed.

Lemma filter_handle_unique h o (l : list (nat * Outcome)) :
  NoDup l.*1 → (h, o) ∈ l → filter (fun p => fst p = h) l = [(h, o)].
Proof.
  induction l as [|p l IH]; intros Hnd Hin; [by apply elem_of_nil in Hin|].
  rewrite fmap_cons in Hnd. apply NoDup_cons in Hnd as [Hp Hnd].
  rewrite filter_cons. apply elem_of_cons in Hin as [<-|Hin].
  - simpl. case_decide; [|done]. f_equal. by apply filter_handle_absent.
  - case_decide as Hd; [|by apply IH].
    exfalso. apply Hp. rewrite Hd. apply list_elem_of_fmap. by exists (h, o).
Qed.

Lemma settlements_unique h o c :
  Inv c → (h, o) ∈ settled c →
  ∀ es, settlements h (run JSON_parse es c) = [(h, o)].
Proof.
  intros HI Hin es. apply filter_handle_unique.
  - apply inv_once. by apply Inv_run.
  - destruct (run_grows es c) as [k ->]. apply elem_of_app. by left.
Qed.

(** The state the rejecting listener starts from. *)
Definition at_loss (e : Event) (c : Client) : Client :=
  match e with
  | ESocketError _ => log "connect(): error" c
  | _ => c
  end.

Lemma at_loss_same e c : SupervisorConnect.same_calls c (at_loss e c).
Proof. destruct e; by repeat split. Qed.

Lemma step_lost e err c :
  exited c = None → lost_with e = Some err →
  step JSON_parse e c = rejectAll err (at_loss e c).
Proof. unfold step. intros ->. destruct e; try discriminate; by intros [= <-]. Qed.

Lemma connectWithRetry_connects conn c :
  (connects c < connects (fst (connectWithRetry conn c)))%nat.
Proof.
  unfold connectWithRetry. destruct (conn O) as [|e]; cbn [connect]; [simpl; lia|].
  match goal with |- context [retryLoop conn ?n ?a ?l ?x] =>
    destruct (SupervisorConnect.retryLoop_spec conn n a l x) as (_ & _ & -> & _) end.
  simpl. lia.
Qed.

Lemma send_connects id method params conn w c :
  connects (send id method params conn w c) = connects (fst (ensure conn (new_call c))).
Proof.
  unfold send. destruct (ensure conn (new_call c)) as [c1 [[]|e]]; simpl; [|done].
  destruct (socket c1); [destruct w|]; done.
Qed.

(** C2. When the socket errors or closes, every request in the pending
    table, none of which was settled before, is rejected with the error of
    the event, and that rejection stays its only settlement whatever happens
    later; the other promises are not touched; the table is empty, the
    socket reference is cleared, and the next [send] has to connect before it
    can write. *)
Theorem connection_loss_rejects_pending_once es e err :
  let c := run JSON_parse es new_BackendClient in
  exited c = None →
  lost_with e = Some err →
  let c' := step JSON_parse e c in
  pending c' = ∅ ∧ socket c' = None ∧
  (∀ id h, pending c !! id = Some h →
     settlements h c = [] ∧
     ∀ es', settlements h (run JSON_parse es' c') = [(h, Rejected err)]) ∧
  (∀ h, (∀ id, pending c !! id ≠ Some h) → settlements h c' = settlements h c) ∧
  (∀ id method params conn w,
     (connects c' < connects (step JSON_parse (ESend id method params conn w) c'))%nat).
Proof.
  intros c Hx He c'. subst c'. rewrite (step_lost e err c Hx He).
  assert (HI : Inv c) by apply Inv_run, Inv_new.
  destruct (at_loss_same e c) as (Hp0 & Hs0 & Hn0 & Hx0 & _).
  set (c0 := at_loss e c) in *.
  assert (HI0 : Inv c0) by by eapply Inv_same.
  assert (Hc0 : connects c0 = connects c) by (subst c0; by destruct e).
  unfold settlements. rewrite <- Hs0, <- Hp0. clearbody c0.
  destruct (rejectAll_fields err c0) as (Hp & Hs & Hn & Hc & Hx').
  split; [done|]. split; [done|]. split; [|split].
  - intros id h Hid. split.
    + apply filter_handle_absent. by eapply inv_unsettled.
    + apply settlements_unique; [by apply Inv_rejectAll|].
      rewrite rejectAll_settled. apply elem_of_app. right.
      apply (list_elem_of_fmap_2 (fun p : string * nat => (snd p, Rejected err)) _ (id, h)).
      by apply elem_of_map_to_list.
  - intros h Hh. rewrite rejectAll_settled, filter_app.
    rewrite (filter_handle_absent h (map _ _)); [by rewrite app_nil_r|].
    rewrite rejected_handles. intros ([i h'] & -> & Hin)%list_elem_of_fmap.
    apply elem_of_map_to_list in Hin. by apply (Hh i).
  - intros id method params conn w. unfold step. rewrite Hx', Hx0, Hx.
    rewrite send_connects. unfold ensure.
    change (socket (new_call (rejectAll err c0))) with (socket (rejectAll err c0)).
    rewrite Hs.
    apply (connectWithRetry_connects conn
             (log "ensure(): connecting to backend" (new_call (rejectAll err c0)))).
Qed.

(** *** Responses *)

Lemma frames_keep_request id h ls : ∀ c,
  Forall (fun l => frame_id l ≠ Some id) ls →
  pending c !! id = Some h →
  pending (foldl process c ls) !! id = Some h.
Proof.
  induction ls as [|l ls IH]; intros c Hls Hid; simpl; [done|].
  apply Forall_cons in Hls as [Hl Hls]. apply IH; [done|].
  destruct (process_line_effect l c) as [Hp _ _|key h' error result o Hparse _ _ Hp _];
    rewrite Hp; [done|].
  rewrite lookup_delete_ne; [done|].
  intros ->. apply Hl. unfold frame_id. by rewrite Hparse.
Qed.

Lemma process_line_answer line c id h error result o :
  parse_response JSON_parse line = Normal (JStr id, error, result) →
  frame_outcome error result = Normal o →
  pending c !! id = Some h →
  settled (process_line JSON_parse line c) = settled c ++ [(h, o)] ∧
  pending (process_line JSON_parse line c) = delete id (pending c).
Proof.
  intros Hparse Ho Hid. unfold process_line. rewrite Hparse. simpl.
  by rewrite Hid, Ho.
Qed.

Lemma outcome_of_settlements h o c :
  settlements h c = [(h, o)] → outcome_of h c = Some o.
Proof. unfold outcome_of, settlements. by intros ->. Qed.

Lemma undisturbed_step id h e c :
  pending c !! id = Some h → ¬ disturbs id e c →
  pending (step JSON_parse e c) !! id = Some h.
Proof.
  intros Hid Hd. unfold step. destruct (exited c); [done|]. destruct e; simpl in Hd.
  - destruct (send_effect id0 method params conn writeThrows c) as ([Hp _|x Hp _|x Hp _] & _);
      rewrite Hp; [by rewrite lookup_insert_ne|done|by rewrite lookup_delete_ne].
  - rewrite onData_frames. simpl. apply frames_keep_request; [|done].
    apply Forall_forall. intros l Hl Hf. apply Hd, Exists_exists. eauto.
  - by destruct Hd.
  - by destruct Hd.
  - by destruct code as [[]|].
  - unfold cleanup. simpl.
    destruct (backendProcess c) as [p|]; [destruct (killed p)|]; simpl;
      (destruct (socket c) as [s|]; [destruct (destroyed s)|]); done.
Qed.

Lemma send_connected id method params conn c s :
  exited c = None → socket c = Some s → destroyed s = false →
  let c' := step JSON_parse (ESend id method params conn None) c in
  pending c' !! id = Some (nextCall c) ∧
  wire c' = wire c ++ [(sock_id s, {| req_id := id; req_method := method;
                                      req_params := params |})] ∧
  settled c' = settled c.
Proof.
  intros Hx Hs Hd. unfold step. rewrite Hx. unfold send, ensure. simpl.
  rewrite Hs, Hd. simpl. rewrite Hs. simpl. by rewrite lookup_insert_eq.
Qed.

(** C1. Take any history of the client, a [send] whose promise is [h] and
    whose id is [id], and any further events after which the request is
    still outstanding.  When a chunk then completes a frame with that id (the
    frames before it in the chunk carrying other ids), promise [h], unsettled
    so far, is settled with what that frame carries: its result, or its
    error if it has one; and this stays the only settlement of [h] whatever
    arrives later, in whatever order.  A [send] on a live socket registers
    its promise under the id it writes, and the request stays in the table
    through every event other than a [send] drawing the same id, a frame
    with that id and the loss of the connection.  A frame whose id is
    not in the pending table only adds two log lines: socket, pending table,
    settlements and buffer stay as they are. *)
Theorem responses_matched_by_id :
  (∀ es1 id method params conn w es2 chunk pre line post rest error result o,
     let c0 := run JSON_parse es1 new_BackendClient in
     let h := nextCall c0 in
     let c2 := run JSON_parse (es1 ++ ESend id method params conn w :: es2)
                   new_BackendClient in
     exited c2 = None →
     pending c2 !! id = Some h →
     frames_in (String.append (buffer c2) chunk) = (pre ++ line :: post, rest) →
     Forall (fun l => frame_id l ≠ Some id) pre →
     parse_response JSON_parse line = Normal (JStr id, error, result) →
     frame_outcome error result = Normal o →
     let c3 := step JSON_parse (EData chunk) c2 in
     settlements h c2 = [] ∧
     outcome_of h c3 = Some o ∧
     (truthy error = false → o = Resolved result) ∧
     pending c3 !! id = None ∧
     (∀ id', id' ≠ id → pending c3 !! id' = None ∨ pending c3 !! id' = pending c2 !! id') ∧
     ∀ es3, settlements h (run JSON_parse es3 c3) = [(h, o)])
  ∧
  (∀ c id method params conn s,
     exited c = None → socket c = Some s → destroyed s = false →
     let c' := step JSON_parse (ESend id method params conn None) c in
     pending c' !! id = Some (nextCall c) ∧
     wire c' = wire c ++ [(sock_id s, {| req_id := id; req_method := method;
                                         req_params := params |})])
  ∧
  (∀ c id h e,
     pending c !! id = Some h → ¬ disturbs id e c →
     pending (step JSON_parse e c) !! id = Some h)
  ∧
  (∀ c line idv error result,
     parse_response JSON_parse line = Normal (idv, error, result) →
     pending_get idv (pending c) = None →
     let c' := process_line JSON_parse line c in
     socket c' = socket c ∧ pending c' = pending c ∧ settled c' = settled c ∧
     buffer c' = buffer c ∧ exited c' = exited c ∧
     logs c' = logs c ++ ["onData(): received response";
                          "onData(): no pending request found"]).
Proof.
  split.
  - intros es1 id method params conn w es2 chunk pre line post rest error result o
           c0 h c2 Hx Hid Hframes Hpre Hparse Ho c3.
    assert (HI : Inv c2) by apply Inv_run, Inv_new.
    assert (E : c3 = set_buffer rest (foldl process c2 (pre ++ line :: post))).
    { subst c3. unfold step. rewrite Hx, onData_frames. by rewrite Hframes. }
    rewrite foldl_app in E. simpl in E.
    set (cA := foldl process c2 pre) in *.
    assert (HA : pending cA !! id = Some h) by by apply frames_keep_request.
    destruct (process_line_answer line cA id h error result o Hparse Ho HA) as [HsB HpB].
    set (cB := process_line JSON_parse line cA) in *.
    destruct (frames_grow post cB) as [[k Hk] Hsub].
    assert (Hin : (h, o) ∈ settled c3).
    { rewrite E. simpl. rewrite Hk, HsB. apply elem_of_app. left.
      apply elem_of_app. right. by apply list_elem_of_singleton. }
    assert (HI3 : Inv c3).
    { rewrite E. apply Inv_set_buffer, Inv_frames, Inv_process_line, Inv_frames, HI. }
    assert (Hgone : pending c3 !! id = None).
    { rewrite E. simpl. eapply lookup_weaken_None; [|exact Hsub].
      rewrite HpB. apply lookup_delete_eq. }
    split; [apply filter_handle_absent; by eapply inv_unsettled|].
    split; [apply outcome_of_settlements, (settlements_unique h o c3 HI3 Hin [])|].
    split.
    { intros Hf. unfold frame_outcome in Ho. rewrite Hf in Ho. by injection Ho as <-. }
    split; [done|]. split; [|by apply settlements_unique].
    intros id' Hne. destruct (pending c3 !! id') as [h'|] eqn:E'; [right|by left].
    rewrite E in E'. simpl in E'.
    assert (pending c2 !! id' = Some h') as ->; [|done].
    eapply lookup_weaken; [exact E'|]. etrans; [exact Hsub|].
    etrans; [apply process_line_grows|]. apply frames_grow.
  - split.
    { intros c id method params conn s Hx Hs Hd c'.
      destruct (send_connected id method params conn c s Hx Hs Hd) as (? & ? & _).
      done. }
    split; [intros c id h e; apply undisturbed_step|].
    intros c line idv error result Hparse Hget c'. subst c'.
    unfold process_line. rewrite Hparse. simpl. rewrite Hget. simpl.
    by rewrite <- app_assoc.
Qed.

End Frames.

(** *** Two requests answered in the opposite order *)

Definition nl : string := String newline "".

(** A stand-in for [JSON.parse] that knows two response lines. *)
Definition two_answers (line : string) : Exc JsValue :=
  if String.eqb line "answer-a" then Normal (JObj [("id", JStr "a"); ("result", JNum 1)])
  else if String.eqb line "answer-b" then Normal (JObj [("id", JStr "b"); ("result", JNum 2)])
  else Throw (ErrorObj "SyntaxError").

Definition up (_ : nat) : ConnectResult := ConnOk.

Definition two_sends : list Event :=
  [ESend "a" "list_tools" (JObj []) up None;
   ESend "b" "call_tool" (JObj []) up None].

Definition reversed_answers : string :=
  String.append "answer-b" (String.append nl (String.append "answer-a" nl)).

Lemma responses_matched_by_id_witness :
  let c2 := run two_answers two_sends new_BackendClient in
  let c3 := step two_answers (EData reversed_answers) c2 in
  outcome_of 0 c3 = Some (Resolved (JNum 1)) ∧
  outcome_of 1 c3 = Some (Resolved (JNum 2)) ∧
  pending c3 = ∅.
Proof.
  intros c2 c3.
  destruct (responses_matched_by_id two_answers) as [Hmatch _].
  split; [|split].
  - refine (proj1 (proj2 (Hmatch [] "a" "list_tools" (JObj []) up None
             [ESend "b" "call_tool" (JObj []) up None] reversed_answers
             ["answer-b"] "answer-a" [] "" JUndefined (JNum 1) (Resolved (JNum 1))
             eq_refl _ eq_refl _ eq_refl eq_refl))).
    + vm_compute. reflexivity.
    + repeat constructor. vm_compute. discriminate.
  - refine (proj1 (proj2 (Hmatch [ESend "a" "list_tools" (JObj []) up None]
             "b" "call_tool" (JObj []) up None [] reversed_answers
             [] "answer-b" ["answer-a"] "" JUndefined (JNum 2) (Resolved (JNum 2))
             eq_refl _ eq_refl _ eq_refl eq_refl))).
    + vm_compute. reflexivity.
    + constructor.
  - vm_compute. reflexivity.
Defined.

Lemma connection_loss_rejects_pending_once_witness :
  let c := run two_answers two_sends new_BackendClient in
  let c' := step two_answers ESocketClose c in
  let late := EData (String.append "answer-a" nl) in
  pending c' = ∅ ∧ socket c' = None ∧
  settlements 0 (run two_answers [late; ESocketClose] c')
    = [(0%nat, Rejected (ErrorObj "Backend disconnected"))] ∧
  settlements 1 (run two_answers [late; ESocketClose] c')
    = [(1%nat, Rejected (ErrorObj "Backend disconnected"))].
Proof.
  intros c c' late.
  destruct (connection_loss_rejects_pending_once two_answers two_sends ESocketClose
              (ErrorObj "Backend disconnected") eq_refl eq_refl)
    as (Hp & Hs & Hall & _).
  split; [exact Hp|]. split; [exact Hs|]. split.
  - apply (Hall "a" 0%nat). vm_compute. reflexivity.
  - apply (Hall "b" 1%nat). vm_compute. reflexivity.
Defined.

End Multiplexing.

(** ** Cancelling a map-generation job *)

Module JobCancellation.

Import Js JobOrchestrator.

(** The literals of the [status] union of [JobData]. *)
Definition status_text (s : MapGenerationTools.JobDataStatus) : string :=
  match s with
  | MapGenerationTools.queued => "queued"
  | MapGenerationTools.generating => "generating"
  | MapGenerationTools.processing => "processing"
  | MapGenerationTools.complete => "complete"
  | MapGenerationTools.failed => "failed"
  | MapGenerationTools.expired => "expired"
  end.

(** The declaration kept by the MCP-side tool knows no cancelled status. *)
Example JobData_lists_no_cancelled : ∀ s, status_text s ≠ "cancelled".
Proof. by intros []. Qed.











End JobCancellation.

(** ** Strings *)

Module StringFacts.

Import BackendClient.

Lemma append_cons a s t : String.append (String a s) t = String a (String.append s t).
Proof. reflexivity. Qed.

Lemma append_assoc s t u :
  String.append (String.append s t) u = String.append s (String.append t u).
Proof. induction s as [|a s IH]; [done|]. rewrite !append_cons. by rewrite IH. Qed.

Lemma indexOf_append ch s t idx :
  indexOf ch s = Some idx → indexOf ch (String.append s t) = Some idx.
Proof.
  revert idx. induction s as [|a s IH]; intros idx; [discriminate|].
  rewrite append_cons. simpl.
  destruct (Ascii.eqb a ch); [done|].
  destruct (indexOf ch s) as [i|]; simpl; [|discriminate].
  intros [= <-]. by rewrite (IH i eq_refl).
Qed.

Lemma slice_to_append n s t :
  (n ≤ String.length s)%nat → slice_to n (String.append s t) = slice_to n s.
Proof.
  revert s. induction n as [|n IH]; intros s Hn; [by destruct s; destruct t|].
  destruct s as [|a s]; simpl in Hn; [lia|].
  rewrite append_cons. simpl. rewrite IH; [done|lia].
Qed.

Lemma slice_from_append n s t :
  (n ≤ String.length s)%nat →
  slice_from n (String.append s t) = String.append (slice_from n s) t.
Proof.
  revert s. induction n as [|n IH]; intros s Hn; [by destruct s; destruct t|].
  destruct s as [|a s]; simpl in Hn; [lia|].
  rewrite append_cons. simpl. apply IH. lia.
Qed.

End StringFacts.

(** ** The receive buffer *)

Module Framing.

Import Js BackendClient StringFacts.

(** The bound on the iterations of the loop is never what stops it. *)
Lemma frames_fuel_enough f1 : ∀ f2 s,
  (String.length s ≤ f1)%nat → (String.length s ≤ f2)%nat →
  Multiplexing.frames_fuel f1 s = Multiplexing.frames_fuel f2 s.
Proof.
  induction f1 as [|f1 IH]; intros f2 s H1 H2.
  - destruct s; [|simpl in H1; lia]. by destruct f2.
  - destruct f2 as [|f2].
    + destruct s; [done|simpl in H2; lia].
    + cbn [Multiplexing.frames_fuel].
      destruct (indexOf newline s) as [idx|] eqn:E; [|done].
      pose proof (Multiplexing.indexOf_lt _ _ _ E) as Hlt.
      rewrite (IH f2); [done|rewrite Multiplexing.slice_from_length; lia..].
Qed.

Lemma frames_in_step s idx :
  indexOf newline s = Some idx →
  Multiplexing.frames_in s =
  let line := trim (slice_to idx s) in
  let r := Multiplexing.frames_in (slice_from (S idx) s) in
  (if String.eqb line "" then fst r else line :: fst r, snd r).
Proof.
  intros E. pose proof (Multiplexing.indexOf_lt _ _ _ E) as Hlt.
  unfold Multiplexing.frames_in at 1.
  destruct (String.length s) as [|n] eqn:El; [lia|].
  cbn [Multiplexing.frames_fuel]. rewrite E.
  unfold Multiplexing.frames_in.
  rewrite (frames_fuel_enough n (String.length (slice_from (S idx) s)));
    [done|rewrite Multiplexing.slice_from_length; lia|done].
Qed.

Lemma frames_in_none s :
  indexOf newline s = None → Multiplexing.frames_in s = ([], s).
Proof.
  intros E. unfold Multiplexing.frames_in.
  destruct (String.length s); cbn [Multiplexing.frames_fuel]; [done|by rewrite E].
Qed.

(** The frames of a buffer to which more text is appended: those it already
    held, then those completed by the new text. *)
Lemma frames_in_append fuel : ∀ s t,
  (String.length s ≤ fuel)%nat →
  let r := Multiplexing.frames_in s in
  let r' := Multiplexing.frames_in (String.append (snd r) t) in
  Multiplexing.frames_in (String.append s t) = (fst r ++ fst r', snd r').
Proof.
  induction fuel as [|fuel IH]; intros s t Hlen.
  - destruct s; [|simpl in Hlen; lia]. cbv zeta.
    change (Multiplexing.frames_in "") with (@nil string, "").
    cbn [fst snd]. change (String.append "" t) with t.
    by destruct (Multiplexing.frames_in t).
  - destruct (indexOf newline s) as [idx|] eqn:E.
    + pose proof (Multiplexing.indexOf_lt _ _ _ E) as Hlt.
      rewrite (frames_in_step (String.append s t) idx) by by apply indexOf_append.
      rewrite (frames_in_step s idx) by done.
      rewrite slice_to_append, slice_from_append by lia.
      cbn zeta. rewrite IH by (rewrite Multiplexing.slice_from_length; lia).
      cbn zeta. cbn [fst snd].
      by destruct (String.eqb _ "").
    + rewrite (frames_in_none s) by done. cbn [fst snd app].
      by destruct (Multiplexing.frames_in (String.append s t)).
Qed.

Lemma set_buffer_twice s r c : set_buffer s (set_buffer r c) = set_buffer s c.
Proof. done. Qed.

(** X1. The stream is reassembled whatever its segmentation: receiving a
    text in two chunks has exactly the effect of receiving it in one, for
    every state of the client; and after every chunk the buffer holds no
    complete line. *)
Theorem onData_chunking JSON_parse a b c :
  onData JSON_parse b (onData JSON_parse a c) = onData JSON_parse (String.append a b) c ∧
  indexOf newline (buffer (onData JSON_parse a c)) = None.
Proof.
  split; [|apply Multiplexing.onData_drained].
  rewrite (Multiplexing.onData_frames JSON_parse (String.append a b) c).
  rewrite <- append_assoc.
  rewrite (frames_in_append (String.length (String.append (buffer c) a))) by done.
  cbn zeta. cbn [fst snd].
  rewrite (Multiplexing.onData_frames JSON_parse b).
  rewrite (Multiplexing.onData_frames JSON_parse a c).
  cbn [buffer set_buffer].
  rewrite Multiplexing.foldl_process_buffer, set_buffer_twice.
  by rewrite foldl_app.
Qed.

End Framing.

(** ** Sending through [ensure] *)

Module Sending.

Import Js BackendClient.

Lemma connectWithRetry_live conn c :
  snd (connectWithRetry conn c) = Normal tt →
  ∃ s, socket (fst (connectWithRetry conn c)) = Some s ∧ destroyed s = false.
Proof.
  unfold connectWithRetry. destruct (conn O) as [|e]; cbn [connect].
  - intros _. simpl. eauto.
  - match goal with |- context [retryLoop conn ?n ?a ?l ?x] =>
      destruct (SupervisorConnect.retryLoop_spec conn n a l x) as (_ & _ & _ & H) end.
    destruct (SupervisorConnect.first_ok conn 0 maxAttempts).
    + by destruct H as (_ & _ & _ & H).
    + destruct H as (_ & cause & -> & _). discriminate.
Qed.

Lemma ensure_live conn c :
  snd (ensure conn c) = Normal tt →
  ∃ s, socket (fst (ensure conn c)) = Some s ∧ destroyed s = false.
Proof.
  unfold ensure. destruct (socket c) as [s|] eqn:E; [destruct (destroyed s) eqn:D|].
  - apply connectWithRetry_live.
  - intros _. simpl. eauto.
  - apply connectWithRetry_live.
Qed.

(** The ways a [send] ends, with what it leaves in the tables and on the
    wire. *)
Lemma send_cases id method params conn w c :
  let c' := send id method params conn w c in
  let h := nextCall c in
  let req := {| req_id := id; req_method := method; req_params := params |} in
  nextCall c' = S h ∧
  ((∃ s, socket c' = Some s ∧ destroyed s = false ∧ w = None ∧
         wire c' = wire c ++ [(sock_id s, req)] ∧
         pending c' = <[id := h]> (pending c) ∧ settled c' = settled c)
   ∨ (∃ e, snd (ensure conn (new_call c)) = Throw e ∧
           wire c' = wire c ∧ pending c' = pending c ∧
           settled c' = settled c ++ [(h, Rejected e)])
   ∨ (∃ e, w = Some e ∧ snd (ensure conn (new_call c)) = Normal tt ∧
           wire c' = wire c ∧ pending c' = delete id (pending c) ∧
           settled c' = settled c ++ [(h, Rejected e)])).
Proof.
  cbv zeta. unfold send.
  destruct (Multiplexing.ensure_same conn (new_call c)) as (Hp & Hs & Hn & Hx & Hb & Hw).
  pose proof (ensure_live conn (new_call c)) as Hlive.
  destruct (ensure conn (new_call c)) as [c1 [[]|e]]; simpl in *.
  - destruct (Hlive eq_refl) as (s & Es & Ds). rewrite Es.
    destruct w as [e|]; simpl.
    + split; [by rewrite Hn|]. right. right. exists e.
      rewrite Hp, Hs, Hw, delete_insert_eq. done.
    + split; [by rewrite Hn|]. left. exists s. by rewrite Es, Hp, Hs, Hw.
  - split; [by rewrite Hn|]. right. left. exists e. by rewrite Hp, Hs, Hw.
Qed.

(** X2. A [send] ends in one of three ways.  Either its request is written,
    once, to a socket that is live, its promise is registered under its id
    and stays unsettled; or [ensure] failed, and then nothing is written, the
    pending table is untouched and the promise is rejected with the error of
    [ensure]; or [socket.write] threw, and then nothing is written, the entry
    under the id is gone and the promise is rejected with that exception.
    A request is never written to a destroyed or missing socket. *)
Theorem send_outcomes id method params conn w c :
  let c' := send id method params conn w c in
  let h := nextCall c in
  let req := {| req_id := id; req_method := method; req_params := params |} in
  nextCall c' = S h ∧
  ((∃ s, socket c' = Some s ∧ destroyed s = false ∧ w = None ∧
         wire c' = wire c ++ [(sock_id s, req)] ∧
         pending c' = <[id := h]> (pending c) ∧ settled c' = settled c)
   ∨ (∃ e, snd (ensure conn (new_call c)) = Throw e ∧
           wire c' = wire c ∧ pending c' = pending c ∧
           settled c' = settled c ++ [(h, Rejected e)])
   ∨ (∃ e, w = Some e ∧ snd (ensure conn (new_call c)) = Normal tt ∧
           wire c' = wire c ∧ pending c' = delete id (pending c) ∧
           settled c' = settled c ++ [(h, Rejected e)])).
Proof. apply send_cases. Qed.






End Sending.

(** ** The handlers of the wrapper *)

Module WrapperReplies.

Import Js BackendClient Wrapper.

(** X4. The [ListTools] handler never throws and always answers with an
    object holding a truthy [tools]: the backend's [tools] when the answer
    has a truthy one, the empty list otherwise, in particular when the
    request was rejected or the answer is [null]; it touches neither the
    pending table nor the settlements. *)
Theorem ListTools_total o c :
  ∃ tools,
    snd (ListTools o c) = Normal (JObj [("tools", tools)]) ∧
    truthy tools = true ∧
    (∀ res t, o = Resolved res → get res "tools" = Normal t → truthy t = true → tools = t) ∧
    (∀ res t, o = Resolved res → get res "tools" = Normal t → truthy t = false →
       tools = JArr []) ∧
    (∀ res e, o = Resolved res → get res "tools" = Throw e → tools = JArr []) ∧
    (∀ e, o = Rejected e → tools = JArr []) ∧
    pending (fst (ListTools o c)) = pending c ∧
    settled (fst (ListTools o c)) = settled c.
Proof.
  unfold ListTools. destruct o as [res|e].
  - destruct (get res "tools") as [t|e] eqn:E; simpl.
    + assert (∃ n, get_opt t "length" = Normal n) as [n ->].
      { unfold get_opt. destruct (nullish t) eqn:N; [eauto|].
        destruct t; try discriminate; simpl; eauto;
          destruct (index_of_key _ _); eauto. }
      simpl. unfold or_else. destruct (truthy t) eqn:T.
      * exists t. repeat split; try done; intros; simplify_eq; congruence.
      * exists (JArr []). repeat split; try done; intros; simplify_eq; congruence.
    + exists (JArr []). repeat split; try done; intros; simplify_eq; congruence.
  - exists (JArr []). simpl. repeat split; done.
Qed.

(** X5. No tool call is left hanging by a lost connection.  For every
    history of the client and every request in its pending table, once the
    socket errors or closes the promise is rejected, so that the [CallTool]
    handler returns an error result, [isError: true] with the text
    ["Error: "] followed by the message of the error, and the [ListTools]
    handler returns an empty tool list; nothing that happens afterwards
    changes these replies. *)
Theorem handlers_after_connection_loss JSON_parse es e err id h :
  let c := run JSON_parse es new_BackendClient in
  exited c = None →
  Multiplexing.lost_with e = Some err →
  pending c !! id = Some h →
  ∀ es', ∃ o,
    let c' := run JSON_parse (e :: es') c in
    outcome_of h c = None ∧
    outcome_of h c' = Some o ∧
    CallTool_reply o =
      Normal (error_result (String.append "Error: " (message_or err "Backend unavailable"))) ∧
    ∀ cl, snd (ListTools o cl) = Normal (JObj [("tools", JArr [])]).
Proof.
  intros c Hx He Hid es'. exists (Rejected err). cbv zeta.
  change (run JSON_parse (e :: es') c) with (run JSON_parse es' (step JSON_parse e c)).
  assert (HI : Multiplexing.Inv c) by apply Multiplexing.Inv_run, Multiplexing.Inv_new.
  rewrite (Multiplexing.step_lost JSON_parse e err c Hx He).
  destruct (Multiplexing.at_loss_same e c) as (Hp0 & Hs0 & Hn0 & _).
  set (c0 := Multiplexing.at_loss e c) in *.
  assert (HI0 : Multiplexing.Inv c0) by by eapply Multiplexing.Inv_same.
  split.
  { unfold outcome_of.
    rewrite Multiplexing.filter_handle_absent; [done|].
    by eapply Multiplexing.inv_unsettled. }
  split; [|done].
  apply Multiplexing.outcome_of_settlements.
  apply Multiplexing.settlements_unique; [by apply Multiplexing.Inv_rejectAll|].
  rewrite Multiplexing.rejectAll_settled. apply elem_of_app. right.
  apply (list_elem_of_fmap_2 (fun p : string * nat => (snd p, Rejected err)) _ (id, h)).
  apply elem_of_map_to_list. by rewrite Hp0.
Qed.

Lemma handlers_after_connection_loss_witness :
  let c := run Multiplexing.two_answers Multiplexing.two_sends new_BackendClient in
  ∃ o, outcome_of 1 (run Multiplexing.two_answers [ESocketClose] c) = Some o ∧
       CallTool_reply o = Normal (error_result "Error: Backend disconnected").
Proof.
  intros c.
  assert (Hx : exited c = None) by (vm_compute; reflexivity).
  assert (Hid : pending c !! "b" = Some 1%nat) by (vm_compute; reflexivity).
  destruct (handlers_after_connection_loss Multiplexing.two_answers Multiplexing.two_sends
              ESocketClose (ErrorObj "Backend disconnected") "b" 1%nat
              Hx eq_refl Hid [])
    as (o & _ & Ho & Hr & _).
  exists o. split; [exact Ho|exact Hr].
Defined.


End WrapperReplies.

(** ** What the bridge sends in reply to a message *)

Module BridgeReplies.

Import Js SocketBridge.

Lemma strict_eq_str_true v s : strict_eq_str v s = true → v = JStr s.
Proof.
  destruct v; simpl; try discriminate. by intros ->%String.eqb_eq.
Qed.

Lemma sendMessage_cases m b :
  sendMessage m b = [] ∨
  ∃ t, sendMessage m b = [OSend t m] ∧ connectionState b = CONNECTED ∧
       BridgeQueries.active_transport b = Some t.
Proof.
  unfold sendMessage, BridgeQueries.active_transport.
  destruct (connectionState b); auto.
  destruct (activeConnectionType b) as [[]|], (rtc b), (ws b); eauto.
Qed.

(** What handling one message can do. *)
Inductive Handled (message : JsValue) (b : Bridge) : list Output → Prop :=
| handled_silently : Handled message b []
| handled_query t id response :
    get message "type" = Normal (JStr "mcp-query") →
    get message "id" = Normal id →
    connectionState b = CONNECTED → BridgeQueries.active_transport b = Some t →
    Handled message b [OSend t (McpResponse id response)]
| handled_ping t id :
    get message "type" = Normal (JStr "ping") →
    get message "id" = Normal id →
    connectionState b = CONNECTED → BridgeQueries.active_transport b = Some t →
    Handled message b [OSend t (Pong id)]
| handled_job :
    get message "type" = Normal (JStr "job-completed") →
    Handled message b [OSceneCreation]
| handled_progress :
    get message "type" = Normal (JStr "map-generation-progress") →
    Handled message b [ONotification].

Lemma handleMessage_handled queries message b :
  Handled message b (snd (handleMessage queries message b)).
Proof.
  unfold handleMessage.
  destruct (get message "type") as [type|e] eqn:Et; simpl; [|constructor].
  destruct (strict_eq_str type "mcp-query") eqn:E1.
  { apply strict_eq_str_true in E1 as ->.
    destruct (get message "data") as [data|]; simpl; [|constructor].
    destruct (handleMCPQuery queries data) as [response|]; simpl; [|constructor].
    destruct (get message "id") as [id|] eqn:Ei; simpl; [|constructor].
    destruct (sendMessage_cases (McpResponse id response) b) as [->|(t & -> & ? & ?)];
      [constructor|by apply handled_query]. }
  destruct (strict_eq_str type "ping") eqn:E2.
  { apply strict_eq_str_true in E2 as ->.
    destruct (get message "id") as [id|] eqn:Ei; simpl; [|constructor].
    destruct (sendMessage_cases (Pong id) b) as [->|(t & -> & ? & ?)];
      [constructor|by apply handled_ping]. }
  destruct (strict_eq_str type "job-completed") eqn:E3.
  { apply strict_eq_str_true in E3 as ->. by apply handled_job. }
  destruct (strict_eq_str type "map-generation-progress") eqn:E4; [|constructor].
  apply strict_eq_str_true in E4 as ->.
  destruct (get message "data") as [data|]; simpl; [|constructor].
  unfold handleProgressUpdate. destruct (truthy data); [by apply handled_progress|constructor].
Qed.

(** X7. Whatever the message, malformed ones included, and whatever the
    query table, [handleMessage] leaves the bridge as it is and does at most
    one thing.  It sends at most one message, only in state CONNECTED and on
    the active transport: the [mcp-response] to an [mcp-query] or the [pong]
    to a [ping], carrying the [id] of the message handled.  It never
    schedules a reconnect and never closes a transport. *)
Theorem handleMessage_replies queries message b :
  fst (handleMessage queries message b) = b ∧
  Handled message b (snd (handleMessage queries message b)).
Proof.
  split; [apply BridgeReconnect.handleMessage_silent|apply handleMessage_handled].
Qed.

(** X8. A query whose method has a handler function in the table: the
    handler is called once, with the query's [data], or with an empty object
    when that is missing or falsy; its result comes back as
    [{success: true, data: result}], an exception it throws as
    [{success: false, error}] with the message of the exception; either way
    the response carries the id of the query and the bridge is left as it
    was. *)
Theorem registered_query_answered queries b message data method h :
  get message "type" = Normal (JStr "mcp-query") →
  get message "data" = Normal data →
  get data "method" = Normal method →
  queries method = Handler h →
  ∃ id args,
    get message "id" = Normal id ∧
    get data "data" = Normal args ∧
    let response :=
      match h (or_else args (JObj [])) with
      | Normal result => QuerySuccess result
      | Throw e => QueryFailure (errorMessage e)
      end in
    handleMessage queries message b = (b, sendMessage (McpResponse id response) b).
Proof.
  intros Ht Hd Hm Hq.
  destruct (BridgeQueries.get_total message "type" _ "id" Ht) as [id Hid].
  destruct (BridgeQueries.get_total data "method" _ "data" Hm) as [args Hargs].
  exists id, args. split; [done|]. split; [done|]. cbv zeta.
  unfold handleMessage. rewrite Ht. simpl. rewrite Hd. simpl.
  unfold handleMCPQuery. rewrite Hm. simpl. rewrite Hq, Hargs. simpl.
  destruct (h (or_else args (JObj []))) as [result|e]; simpl.
  - by rewrite Hid.
  - rewrite ?Hm. simpl. by rewrite Hid.
Qed.

(** A table with one query, which echoes its argument, and one that fails. *)
Definition sample_queries (method : JsValue) : QueryEntry :=
  if strict_eq_str method "foundry-mcp-bridge.echo" then Handler (fun args => Normal args)
  else if strict_eq_str method "foundry-mcp-bridge.broken"
       then Handler (fun _ => Throw (ErrorObj "scene not found"))
       else NoEntry.

Lemma registered_query_answered_witness :
  let b := fst (exec sample_queries [EConnect false; EWsOpen]
                  (new_Bridge BridgeReconnect.two_attempts, [])) in
  snd (handleMessage sample_queries
         (JObj [("type", JStr "mcp-query"); ("id", JNum 7);
                ("data", JObj [("method", JStr "foundry-mcp-bridge.echo")])]) b)
    = [OSend websocket (McpResponse (JNum 7) (QuerySuccess (JObj [])))] ∧
  snd (handleMessage sample_queries
         (JObj [("type", JStr "mcp-query"); ("id", JNum 8);
                ("data", JObj [("method", JStr "foundry-mcp-bridge.broken")])]) b)
    = [OSend websocket (McpResponse (JNum 8) (QueryFailure "scene not found"))].
Proof.
  intros b. split.
  - destruct (registered_query_answered sample_queries b
                (JObj [("type", JStr "mcp-query"); ("id", JNum 7);
                       ("data", JObj [("method", JStr "foundry-mcp-bridge.echo")])])
                (JObj [("method", JStr "foundry-mcp-bridge.echo")])
                (JStr "foundry-mcp-bridge.echo") (fun args => Normal args)
                eq_refl eq_refl eq_refl eq_refl) as (id & args & Hid & Ha & H).
    injection Hid as <-. injection Ha as <-. cbv zeta in H. rewrite H. reflexivity.
  - destruct (registered_query_answered sample_queries b
                (JObj [("type", JStr "mcp-query"); ("id", JNum 8);
                       ("data", JObj [("method", JStr "foundry-mcp-bridge.broken")])])
                (JObj [("method", JStr "foundry-mcp-bridge.broken")])
                (JStr "foundry-mcp-bridge.broken") (fun _ => Throw (ErrorObj "scene not found"))
                eq_refl eq_refl eq_refl eq_refl) as (id & args & Hid & Ha & H).
    injection Hid as <-. injection Ha as <-. cbv zeta in H. rewrite H. reflexivity.
Defined.

End BridgeReplies.

(** ** The reconnect timers of the bridge *)

Module BridgeTimers.

Import SocketBridge.

(** No timer is pending, or exactly the one held in [reconnectTimer]. *)
Definition single (b : Bridge) : Prop :=
  pendingTimers b = [] ∨ ∃ t, pendingTimers b = [t] ∧ reconnectTimer b = Some t.

Lemma remove_timer_one t : remove_timer t [t] = [].
Proof. unfold remove_timer. rewrite filter_cons. by case_decide. Qed.

Lemma single_scheduleReconnect b : single b → single (fst (scheduleReconnect b)).
Proof.
  intros Hs. unfold scheduleReconnect. destruct (_ >=? _); [done|]. simpl.
  right. exists (nextHandle b). simpl. split; [|done].
  destruct Hs as [Hp|(t & Hp & Ht)]; rewrite Hp.
  - by destruct (reconnectTimer b).
  - rewrite Ht. by rewrite remove_timer_one.
Qed.

Lemma single_step queries e b : single b → single (fst (step queries e b)).
Proof.
  intros Hs. destruct e; simpl; try done.
  - unfold single. by destruct (BridgeReconnect.connect_timers wsCtorThrows b) as [-> ->].
  - case_bool_decide as Hin; [|done]. unfold single.
    match goal with |- context [connect ?a ?y] =>
      destruct (BridgeReconnect.connect_timers a y) as [-> ->] end.
    simpl. left. destruct Hs as [Hp|(t0 & Hp & _)]; rewrite Hp in *.
    + by apply elem_of_nil in Hin.
    + apply list_elem_of_singleton in Hin as ->. apply remove_timer_one.
  - by apply (single_scheduleReconnect (set_state DISCONNECTED b)).
  - unfold on_close. destruct wasClean; [done|].
    by apply (single_scheduleReconnect (set_state DISCONNECTED b)).
  - by apply (single_scheduleReconnect (set_state DISCONNECTED b)).
  - left. unfold disconnect. simpl.
    destruct Hs as [Hp|(t & Hp & Ht)]; rewrite Hp.
    + by destruct (reconnectTimer b).
    + rewrite Ht. apply remove_timer_one.
  - by destruct (BridgeReconnect.handleMessage_silent queries m b) as [-> _].
Qed.

(** X9. Whatever the events, at most one reconnect timer is pending at any
    time, and it is the one whose handle the bridge holds in
    [reconnectTimer]: scheduling a reconnect first clears the previous timer,
    so failures reported twice for one attempt (an [error] followed by a
    [close]) do not pile up reconnects. *)
Theorem at_most_one_reconnect_timer queries cfg es :
  let b := fst (exec queries es (new_Bridge cfg, [])) in
  (length (pendingTimers b) ≤ 1)%nat ∧
  ∀ t, t ∈ pendingTimers b → reconnectTimer b = Some t.
Proof.
  cbv zeta.
  assert (H : single (fst (exec queries es (new_Bridge cfg, [])))).
  { generalize (@nil Output).
    assert (H0 : single (new_Bridge cfg)) by by left.
    revert H0. generalize (new_Bridge cfg).
    induction es as [|e es IH]; intros b0 H0 outs; simpl; [done|].
    pose proof (single_step queries e b0 H0) as H1.
    destruct (step queries e b0) as [b1 o]. by apply IH. }
  destruct H as [->|(t & -> & Ht)]; simpl.
  - split; [lia|]. by intros t ?%elem_of_nil.
  - split; [lia|]. by intros t' ->%list_elem_of_singleton.
Qed.

End BridgeTimers.

(** ** The banner and the walls *)

Module BridgeDisplay.

Import Js BridgeHandlers.

Lemma get_defined v k : nullish v = false → ∃ x, get v k = Normal x.
Proof.
  destruct v; intros H; try discriminate H; unfold get; eauto.
  - destruct (String.eqb k "length"); eauto. destruct (index_of_key _ _); eauto.
  - destruct (String.eqb k "length"); eauto. destruct (index_of_key _ _); eauto.
Qed.

Lemma truthy_defined v : truthy v = true → nullish v = false.
Proof. by destruct v. Qed.





(** *** Walls *)

(** The walls that pass the filter of [createSceneWalls]. *)
Definition is_valid (wall : JsValue) : bool :=
  match valid_wall wall with
  | Normal true => true
  | _ => false
  end.

(** A wall document with four numbers as its coordinates. *)
Definition well_formed (document : JsValue) : Prop :=
  ∃ coords, get document "c" = Normal (JArr coords) ∧ length coords = 4%nat ∧
            Forall (fun x => is_coordinate x = true) coords.

Definition is_create (e : Effect) : bool :=
  match e with
  | CreateWalls _ => true
  | _ => false
  end.

Lemma filter_exc_valid xs : ∀ ys,
  filter_exc valid_wall xs = Normal ys → ys = List.filter is_valid xs.
Proof.
  induction xs as [|x xs IH]; intros ys; simpl; [by intros [= <-]|].
  unfold is_valid. destruct (valid_wall x) as [keep|]; simpl; [|discriminate].
  destruct (filter_exc valid_wall xs) as [rest|]; simpl; [|discriminate].
  intros [= <-]. rewrite (IH rest eq_refl). by destruct keep.
Qed.

Lemma filter_exc_nullish xs :
  Exists (fun w => nullish w = true) xs → ∃ e, filter_exc valid_wall xs = Throw e.
Proof.
  induction 1 as [x xs Hx|x xs _ [e IH]]; simpl.
  - unfold valid_wall. destruct x; try discriminate; simpl; eauto.
  - rewrite IH. destruct (valid_wall x); simpl; eauto.
Qed.

Lemma wall_document_well_formed w d :
  is_valid w = true → wall_document w = Normal d → well_formed d.
Proof.
  unfold is_valid, valid_wall, wall_document.
  destruct (get w "c") as [c|]; simpl; [|discriminate].
  destruct c as [| | | | |coords|]; try discriminate.
  destruct ((length coords =? 4)%nat && forallb is_coordinate coords) eqn:E; [|discriminate].
  intros _. apply andb_prop in E as [E1 E2].
  destruct (get w "movement"); simpl; [|discriminate].
  destruct (get w "sight"); simpl; [|discriminate].
  destruct (get w "direction"); simpl; [|discriminate].
  destruct (get w "door"); simpl; [|discriminate].
  destruct (get w "doorState"); simpl; [|discriminate].
  destruct (get w "flags"); simpl; [|discriminate].
  intros [= <-]. exists coords. split; [done|]. split.
  - by apply Nat.eqb_eq.
  - apply Forall_forall. intros x Hx. rewrite forallb_forall in E2.
    apply E2. by apply list_elem_of_In.
Qed.

Lemma map_exc_documents ys : ∀ docs,
  Forall (fun w => is_valid w = true) ys →
  map_exc wall_document ys = Normal docs →
  Forall well_formed docs ∧ length docs = length ys.
Proof.
  induction ys as [|y ys IH]; intros docs Hv; simpl.
  - intros [= <-]. by split.
  - apply Forall_cons in Hv as [Hy Hv].
    destruct (wall_document y) as [d|] eqn:E; simpl; [|discriminate].
    destruct (map_exc wall_document ys) as [rest|]; simpl; [|discriminate].
    intros [= <-]. destruct (IH rest Hv eq_refl) as [H1 H2]. split.
    + constructor; [by eapply wall_document_well_formed|done].
    + simpl. by rewrite H2.
Qed.

Lemma filter_all_valid xs : Forall (fun w => is_valid w = true) (List.filter is_valid xs).
Proof.
  apply Forall_forall. intros x Hx%list_elem_of_In. by apply List.filter_In in Hx as [_ ?].
Qed.

(** X11. [createSceneWalls] never throws and calls
    [createEmbeddedDocuments] at most once.  When it does, the documents are
    those of exactly the walls that pass the filter, in their order: there
    is at least one, and each has four numbers as coordinates.  A wall that
    is [null] makes the filter throw, and then nothing is created and one
    warning is shown. *)
Theorem created_walls_are_valid scene wallsData created :
  let r := createSceneWalls scene wallsData created in
  snd r = Normal tt ∧
  (length (List.filter is_create (fst r)) ≤ 1)%nat ∧
  (∀ documents, CreateWalls documents ∈ fst r →
     ∃ walls,
       wallsData = JArr walls ∧
       map_exc wall_document (List.filter is_valid walls) = Normal documents ∧
       documents ≠ [] ∧
       length documents = length (List.filter is_valid walls) ∧
       Forall well_formed documents) ∧
  (∀ walls, wallsData = JArr walls → Exists (fun w => nullish w = true) walls →
     ∃ message, fst r = [NotifyWarn message]).
Proof.
  cbv zeta. unfold createSceneWalls.
  destruct wallsData as [| | | | |[|w ws]|];
    try (split; [done|]; split; [simpl; lia|]; split;
         [by intros d ?%elem_of_nil|]; intros walls [= <-]; by intros ?%Exists_nil).
  set (walls0 := w :: ws).
  assert (Hcons : ∀ walls, JArr walls0 = JArr walls → walls = walls0) by by intros ? [= <-].
  clearbody walls0.
  destruct (get scene "name") as [name|e0] eqn:En; cbn [bind].
  2: { split; [done|]. split; [simpl; lia|]. split; [|simpl; eauto].
       intros d Hd. apply list_elem_of_singleton in Hd. discriminate. }
  destruct (filter_exc valid_wall walls0) as [valid|e1] eqn:Ef; cbn [bind].
  2: { split; [done|]. split; [simpl; lia|]. split; [|simpl; eauto].
       intros d Hd. apply list_elem_of_singleton in Hd. discriminate. }
  assert (Hnn : ∀ walls, JArr walls0 = JArr walls →
                ¬ Exists (fun x => nullish x = true) walls).
  { intros walls ->%Hcons Hex. destruct (filter_exc_nullish _ Hex) as [e He]. congruence. }
  apply filter_exc_valid in Ef. subst valid.
  destruct (map_exc wall_document (List.filter is_valid walls0)) as [docs|e2] eqn:Em.
  2: { split; [done|]. split; [simpl; lia|]. split.
       - intros d Hd. apply list_elem_of_singleton in Hd. discriminate.
       - intros walls Hw Hex. by destruct (Hnn walls Hw). }
  destruct (map_exc_documents _ docs (filter_all_valid walls0) Em) as [Hwf Hlen].
  destruct docs as [|d0 docs'].
  { split; [done|]. split; [simpl; lia|]. split.
    - intros d Hd. apply list_elem_of_singleton in Hd. discriminate.
    - intros walls Hw Hex. by destruct (Hnn walls Hw). }
  assert (Hdocs : ∀ d, d = d0 :: docs' →
            ∃ walls, JArr walls0 = JArr walls ∧
              map_exc wall_document (List.filter is_valid walls) = Normal d ∧
              d ≠ [] ∧ length d = length (List.filter is_valid walls) ∧
              Forall well_formed d).
  { intros d ->. exists walls0. by repeat split. }
  destruct created as [[]|e3]; simpl.
  - split; [done|]. split; [lia|]. split.
    + intros d [Hd|Hd]%elem_of_cons; [injection Hd as ->; by apply Hdocs|].
      apply list_elem_of_singleton in Hd. discriminate.
    + intros walls Hw Hex. by destruct (Hnn walls Hw).
  - split; [done|]. split; [lia|]. split.
    + intros d [Hd|Hd]%elem_of_cons; [injection Hd as ->; by apply Hdocs|].
      apply list_elem_of_singleton in Hd. discriminate.
    + intros walls Hw Hex. by destruct (Hnn walls Hw).
Qed.

End BridgeDisplay.

(** ** The tools that forward to the bridge *)

Module ForwardingTools.

Import Js MapGenerationTools MapTools.

(** *** [trim] *)





(** *** Which queries are sent *)




(** A bridge that is only ever asked [method] with parameters accepted by
    [accepted]: any other call gives a marker no tool produces. *)
Definition only (method : string) (accepted : JsValue → bool)
    (query : string → JsValue → Exc JsValue) : string → JsValue → Exc JsValue :=
  fun m params =>
    if String.eqb m method && accepted params then query m params
    else Throw (ErrorObj "a query the tool does not send").






End ForwardingTools.

(** ** Progress callbacks *)

Module ProgressPush.

Import Js ComfyUIClient ComfyUIService.

(** Calls of [registerProgressCallback] and [unregisterProgressCallback]. *)
Inductive Op :=
| Register (promptId : string) (callback : nat)
| Unregister (promptId : string).

Definition apply (m : Callbacks) (op : Op) : Callbacks :=
  match op with
  | Register p cb => registerProgressCallback p cb m
  | Unregister p => unregisterProgressCallback p m
  end.










End ProgressPush.

(** ** Health and images *)

Module ServiceReads.

Import Js ComfyUIClient ComfyUIService.

Lemma first_field_spec obj fields :
  nullish obj = false →
  ∃ r, first_field obj fields = Normal r ∧
       match r with
       | Some v => truthy v = true ∧ ∃ f, f ∈ fields ∧ get obj f = Normal v
       | None => ∀ f v, f ∈ fields → get obj f = Normal v → truthy v = false
       end.
Proof.
  intros N. induction fields as [|f fields (r & Hr & IH)]; simpl.
  - exists None. split; [done|]. intros f v Hf. by apply elem_of_nil in Hf.
  - destruct (BridgeDisplay.get_defined obj f N) as [v Hv]. rewrite Hv. simpl.
    destruct (truthy v) eqn:T.
    + exists (Some v). split; [done|]. split; [done|]. exists f. split; [|done].
      apply elem_of_cons. by left.
    + exists r. split; [done|]. destruct r as [w|].
      * destruct IH as (Tw & g & Hg & Hgw). split; [done|]. exists g. split; [|done].
        apply elem_of_cons. by right.
      * intros g w [->|Hg]%elem_of_cons Hgw; [congruence|by eapply IH].
Qed.

Lemma extractGPUInfo_spec data :
  nullish data = false →
  ∃ gpu, extractGPUInfo data = Normal gpu ∧
    (gpu = JUndefined ∨ truthy gpu = true) ∧
    (∀ f v, f ∈ gpuFields → get data f = Normal v → truthy v = true →
       ∃ g, g ∈ gpuFields ∧ get data g = Normal gpu ∧ truthy gpu = true).
Proof.
  intros N. unfold extractGPUInfo.
  destruct (first_field_spec data gpuFields N) as (top & -> & Htop). cbn [bind].
  destruct top as [v|].
  - destruct Htop as (T & g & Hg & Hgv). exists v. split; [done|]. split; [by right|].
    intros _ _ _ _ _. eauto.
  - destruct (BridgeDisplay.get_defined data "system" N) as [system ->]. cbn [bind].
    destruct (truthy system && is_object system) eqn:E.
    + apply andb_prop in E as [T _].
      destruct (first_field_spec system gpuFields (BridgeDisplay.truthy_defined _ T))
        as (nested & -> & Hn). cbn [bind].
      eexists. split; [done|]. split.
      * destruct nested as [w|]; [right; apply Hn|by left].
      * intros f v Hf Hv Tv. rewrite (Htop f v Hf Hv) in Tv. discriminate.
    + exists JUndefined. split; [done|]. split; [by left|].
      intros f v Hf Hv Tv. rewrite (Htop f v Hf Hv) in Tv. discriminate.
Qed.

Lemma extractGPUInfo_nullish data : nullish data = true → ∃ e, extractGPUInfo data = Throw e.
Proof. destruct data; try discriminate; intros _; simpl; eauto. Qed.

(** X15. [checkHealth] never throws.  The service is reported available
    exactly when the request succeeds with a body other than [null] or
    [undefined]: a failed request, a timeout, and also an answer without a
    body give [available: false].  When available, the report carries the
    elapsed time and the body, and [gpuInfo] is [undefined] or a truthy value;
    if one of the five GPU fields is truthy on the body itself, [gpuInfo] is
    such a field of the body, never one of the nested [system] object. *)
Theorem health_check response elapsed :
  ∃ info,
    checkHealth response elapsed = Normal info ∧
    (available info = true ↔ ∃ data, response = HttpOk data ∧ nullish data = false) ∧
    (available info = true →
       responseTime info = Some elapsed ∧ response = HttpOk (systemInfo info) ∧
       (gpuInfo info = JUndefined ∨ truthy (gpuInfo info) = true) ∧
       (∀ f v, f ∈ gpuFields → get (systemInfo info) f = Normal v → truthy v = true →
          ∃ g, g ∈ gpuFields ∧ get (systemInfo info) g = Normal (gpuInfo info) ∧
               truthy (gpuInfo info) = true)).
Proof.
  unfold checkHealth. destruct response as [data|e]; simpl.
  - destruct (nullish data) eqn:N.
    + destruct (extractGPUInfo_nullish data N) as [e ->]. simpl.
      eexists. split; [done|]. simpl. split; [|done].
      split; [done|]. intros (d & [= <-] & Hd). congruence.
    + destruct (extractGPUInfo_spec data N) as (gpu & -> & Hg & Htop). simpl.
      eexists. split; [done|]. simpl. split; [split; eauto|].
      intros _. split; [done|]. split; [done|]. split; done.
  - eexists. split; [done|]. simpl. split; [|done].
    split; [done|]. by intros (d & ? & _).
Qed.

(** Where a file name comes from. *)
Definition listed_image (promptId : string) (history : HttpResult) (filename : JsValue)
  : Prop :=
  ∃ data jobData outputs nodeId nodeOutput images image,
    history = HttpOk data ∧
    get data promptId = Normal jobData ∧
    get jobData "outputs" = Normal outputs ∧
    get outputs nodeId = Normal nodeOutput ∧
    get nodeOutput "images" = Normal (JArr images) ∧
    image ∈ images ∧
    get image "filename" = Normal filename.

Lemma image_names_sound images : ∀ names f,
  image_names images = Normal names → f ∈ names →
  truthy f = true ∧ ∃ image, image ∈ images ∧ get image "filename" = Normal f.
Proof.
  induction images as [|image images IH]; intros names f; simpl.
  - intros [= <-] Hf. by apply elem_of_nil in Hf.
  - destruct (get image "filename") as [filename|] eqn:E; simpl; [|discriminate].
    destruct (image_names images) as [rest|]; simpl; [|discriminate].
    intros [= <-] Hf.
    assert (f ∈ rest → truthy f = true ∧
              ∃ image0, image0 ∈ image :: images ∧ get image0 "filename" = Normal f) as Hrest.
    { intros Hin. destruct (IH rest f eq_refl Hin) as (T & i & Hi & Hif).
      split; [done|]. exists i. split; [|done]. apply elem_of_cons. by right. }
    destruct (truthy filename) eqn:T; [|by apply Hrest].
    apply elem_of_cons in Hf as [->|Hf]; [|by apply Hrest].
    split; [done|]. exists image. split; [|done]. apply elem_of_cons. by left.
Qed.

Lemma node_names_sound outputs nodeIds : ∀ names f,
  node_names outputs nodeIds = Normal names → f ∈ names →
  truthy f = true ∧
  ∃ nodeId nodeOutput images image,
    get outputs nodeId = Normal nodeOutput ∧
    get nodeOutput "images" = Normal (JArr images) ∧
    image ∈ images ∧ get image "filename" = Normal f.
Proof.
  induction nodeIds as [|nodeId nodeIds IH]; intros names f; simpl.
  - intros [= <-] Hf. by apply elem_of_nil in Hf.
  - destruct (get outputs nodeId) as [nodeOutput|] eqn:En; simpl; [|discriminate].
    destruct (truthy nodeOutput) eqn:T.
    + destruct (get nodeOutput "images") as [images|] eqn:Ei; simpl; [|discriminate].
      destruct (match images with JArr xs => image_names xs | _ => Normal [] end)
        as [here|] eqn:Eh; simpl; [|discriminate].
      destruct (node_names outputs nodeIds) as [more|]; simpl; [|discriminate].
      intros [= <-] [Hf|Hf]%elem_of_app; [|by apply (IH more)].
      destruct images as [| | | | |xs|]; try (injection Eh as <-; by apply elem_of_nil in Hf).
      destruct (image_names_sound xs here f Eh Hf) as (Tf & image & Hi & Hif).
      split; [done|]. by exists nodeId, nodeOutput, xs, image.
    + simpl. destruct (node_names outputs nodeIds) as [more|]; simpl; [|discriminate].
      intros [= <-] Hf. by apply (IH more).
Qed.

(** X16. [getJobImages] never throws.  A failed request gives the empty
    list, and so does an answer that holds no entry for the prompt id or no
    [outputs] in it.  Every file name returned is truthy and is the
    [filename] of an image listed in the [images] array of one of the nodes
    of [history[promptId].outputs]; nothing else is ever returned. *)
Theorem job_images promptId history :
  ∃ names,
    getJobImages promptId history = Normal names ∧
    (∀ e, history = HttpFail e → names = []) ∧
    (∀ data jobData, history = HttpOk data → get data promptId = Normal jobData →
       truthy jobData = false → names = []) ∧
    (∀ f, f ∈ names → truthy f = true ∧ listed_image promptId history f).
Proof.
  unfold getJobImages.
  assert (Hnil : ∃ names : list JsValue,
            Normal (@nil JsValue) = Normal names ∧
            (∀ e, history = HttpFail e → names = []) ∧
            (∀ d j, history = HttpOk d → get d promptId = Normal j →
               truthy j = false → names = []) ∧
            (∀ f, f ∈ names → truthy f = true ∧ listed_image promptId history f)).
  { exists []. split; [done|]. split; [done|]. split; [done|].
    intros f Hf. by apply elem_of_nil in Hf. }
  destruct history as [data|e]; cbn [await_get bind try_catch]; [|done].
  destruct (truthy data) eqn:Td; cbn [negb try_catch]; [|done].
  pose proof (BridgeDisplay.truthy_defined data Td) as Nd.
  destruct (Object_keys data) as [keys|e] eqn:Ek; cbn [bind try_catch]; [|done].
  destruct (length keys =? 0)%nat; cbn [try_catch]; [done|].
  destruct (BridgeDisplay.get_defined data promptId Nd) as [jobData Hj].
  rewrite Hj. cbn [bind].
  destruct (truthy jobData) eqn:Tj; cbn [negb try_catch]; [|done].
  pose proof (BridgeDisplay.truthy_defined jobData Tj) as Nj.
  destruct (BridgeDisplay.get_defined jobData "outputs" Nj) as [outputs Ho].
  rewrite Ho. cbn [bind].
  destruct (truthy outputs) eqn:To; cbn [negb try_catch]; [|done].
  destruct (Object_keys outputs) as [nodeIds|e] eqn:En; cbn [bind try_catch]; [|done].
  destruct (node_names outputs nodeIds) as [names|e] eqn:Enn; cbn [try_catch]; [|done].
  exists names. split; [done|]. split; [done|]. split.
  - intros d j [= <-] Hdj Tfalse. rewrite Hj in Hdj. injection Hdj as <-. congruence.
  - intros f Hf.
    destruct (node_names_sound outputs nodeIds names f Enn Hf)
      as (Tf & nodeId & nodeOutput & images & image & H1 & H2 & H3 & H4).
    split; [done|]. by exists data, jobData, outputs, nodeId, nodeOutput, images, image.
Qed.

End ServiceReads.

(** ** Detection of the installation *)

Module Detection.

Import Js ComfyUIPaths.

Section Platform.

Variables isWindows isMac : bool.
Variables HOME USERPROFILE LOCALAPPDATA : option string.
Variable existsSync : string -> bool.
Variable statSync_isFile : string -> Exc bool.
Variable path_join : list string -> string.
Variable appDataDir : string.

Local Abbreviation valid := (isValidComfyUIPath existsSync statSync_isFile path_join).
Local Abbreviation common := (getCommonComfyUIPaths isWindows isMac HOME USERPROFILE LOCALAPPDATA).

Lemma isValid_total p : ∃ b, valid p = Normal b.
Proof.
  unfold isValidComfyUIPath.
  destruct (existsSync _); simpl; [|eauto].
  destruct (statSync_isFile _); simpl; eauto.
Qed.

Lemma first_installation_spec paths :
  ∃ r, first_installation existsSync statSync_isFile path_join paths = Normal r ∧
    match r with
    | Some p =>
        ∃ before after, paths = before ++ p :: after ∧ valid p = Normal true ∧
                        Forall (fun q => valid q = Normal false) before
    | None => Forall (fun q => valid q = Normal false) paths
    end.
Proof.
  induction paths as [|p paths (r & Hr & IH)]; simpl.
  - exists None. by split.
  - destruct (isValid_total p) as [[] Hp]; rewrite Hp; simpl.
    + exists (Some p). split; [done|]. by exists [], paths.
    + exists r. split; [done|]. destruct r as [q|].
      * destruct IH as (before & after & -> & Hq & Hb).
        exists (p :: before), after. split; [done|]. split; [done|]. by constructor.
      * by constructor.
Qed.

Lemma append_nonempty s t : t ≠ "" → s +:+ t ≠ "".
Proof. destruct s; [done|]. by rewrite StringFacts.append_cons. Qed.

Lemma common_nonempty p : p ∈ common → p ≠ "".
Proof.
  unfold getCommonComfyUIPaths.
  destruct isWindows; [|destruct isMac];
    rewrite ?elem_of_cons, elem_of_nil; intros H;
    repeat (destruct H as [->|H]; [try done; by apply append_nonempty|]); done.
Qed.

(** X17. Detection never throws and takes the first of the platform's
    candidate directories that holds a file [main.py]: every candidate
    before the one returned was looked at and rejected, and [null] is
    returned only when all candidates are rejected.  A directory whose
    [main.py] cannot be read counts as rejected.  An installation that was
    detected when the client was constructed is what [config.installPath]
    holds, unless the options override it, and [checkInstallation] then
    accepts it for as long as the files stay as they are. *)
Theorem detection_takes_first_valid :
  ∃ detected,
    detectComfyUIInstallation isWindows isMac HOME USERPROFILE LOCALAPPDATA
      existsSync statSync_isFile path_join = Normal detected ∧
    (∀ p, ∃ b, valid p = Normal b) ∧
    match detected with
    | Some p =>
        p ≠ "" ∧
        (∃ before after, common = before ++ p :: after ∧ valid p = Normal true ∧
                         Forall (fun q => valid q = Normal false) before) ∧
        (∀ python,
           constructed_config isWindows isMac HOME USERPROFILE LOCALAPPDATA
             existsSync statSync_isFile path_join appDataDir None python
           = Normal (Some p, default (getDefaultPythonCommand isWindows isMac existsSync
                                         path_join (Some p)) python)) ∧
        checkInstallation existsSync statSync_isFile path_join (Some p) = Normal true
    | None =>
        Forall (fun q => valid q = Normal false) common ∧
        ∀ python,
          ∃ installPath command,
            constructed_config isWindows isMac HOME USERPROFILE LOCALAPPDATA
              existsSync statSync_isFile path_join appDataDir None python
            = Normal (Some installPath, command) ∧
            installPath = getDefaultInstallPath path_join appDataDir
    end.
Proof.
  unfold detectComfyUIInstallation, constructed_config, detectComfyUIInstallation.
  destruct (first_installation_spec common) as (r & Hr & Hspec).
  exists r. split; [done|]. split; [apply isValid_total|].
  rewrite Hr. destruct r as [p|]; simpl.
  - destruct Hspec as (before & after & Hc & Hp & Hb).
    assert (Hne : p ≠ "").
    { apply common_nonempty. rewrite Hc. apply elem_of_app. right. apply elem_of_cons. by left. }
    apply String.eqb_neq in Hne as Hne'. rewrite Hne'.
    split; [done|]. split; [by exists before, after|]. split; [done|done].
  - split; [done|]. intros python. eauto.
Qed.

End Platform.

End Detection.

(** ** Stopping the service *)

Module ServiceStop.

Import ServiceProcess.

(** Nothing follows a [SIGTERM] for the same process. *)
Fixpoint final_term (l : list (nat * Signal)) : Prop :=
  match l with
  | [] => True
  | (p, SIGTERM) :: r => (p ∉ r.*1) ∧ final_term r
  | _ :: r => final_term r
  end.

Lemma final_term_snoc l q sig :
  final_term l → (∀ p, (p, SIGTERM) ∈ l → p ≠ q) → final_term (l ++ [(q, sig)]).
Proof.
  induction l as [|[p s] l IH]; simpl; intros Hl Hq.
  - destruct sig; simpl; [split; [apply not_elem_of_nil|done]|done].
  - destruct s.
    + destruct Hl as [Hp Hl]. split.
      * rewrite fmap_app, elem_of_app. intros [?|Hin%list_elem_of_singleton]; [done|].
        simpl in Hin. apply (Hq p); [apply elem_of_cons; by left|done].
      * apply IH; [done|]. intros p' Hp'. apply Hq. apply elem_of_cons. by right.
    + apply IH; [done|]. intros p' Hp'. apply Hq. apply elem_of_cons. by right.
Qed.

(** Processes are named by fresh numbers, and a process that was sent
    [SIGTERM] is no longer the one the client holds. *)
Record Safe (s : Service) : Prop := {
  safe_current : ∀ p, process s = Some p → (pid p < nextPid s)%nat;
  safe_signalled : ∀ p sig, (p, sig) ∈ signals s → (p < nextPid s)%nat;
  safe_dropped : ∀ p c, (p, SIGTERM) ∈ signals s → process s = Some c → pid c ≠ p;
  safe_final : final_term (signals s)
}.

Lemma Safe_same s s' :
  Safe s → signals s' = signals s → nextPid s' = nextPid s →
  (process s' = None ∨ process s' = process s) → Safe s'.
Proof.
  intros [H1 H2 H3 H4] Hs Hn Hp. split; rewrite ?Hs, ?Hn; auto.
  - intros p Hc. destruct Hp as [Hp|Hp]; rewrite Hp in Hc; [done|auto].
  - intros p c Ht Hc. destruct Hp as [Hp|Hp]; rewrite Hp in Hc; [done|eauto].
Qed.

Lemma Safe_killed s c sig delivered :
  Safe s → process s = Some c → sig = SIGKILL → Safe (kill sig delivered s).
Proof.
  intros [H1 H2 H3 H4] Hc ->. unfold kill. rewrite Hc. split; simpl.
  - intros p [= <-]. simpl. by apply H1.
  - intros p sig [?|Hin%list_elem_of_singleton]%elem_of_app; [eauto|].
    injection Hin as -> ->. by apply H1.
  - intros p c' [?|Hin%list_elem_of_singleton]%elem_of_app [= <-]; [|discriminate].
    simpl. eauto.
  - apply final_term_snoc; [done|]. intros p Hp ->. by apply (H3 (pid c) c).
Qed.

Lemma Safe_stop s delivered : Safe s → Safe (stopService delivered s).
Proof.
  intros HS. unfold stopService. destruct (remote s); [done|].
  unfold running. destruct (process s) as [c|] eqn:Hc; [|done].
  destruct (killed c); [done|]. simpl.
  destruct HS as [H1 H2 H3 H4]. unfold kill. rewrite Hc. split; simpl.
  - done.
  - intros p sig [?|Hin%list_elem_of_singleton]%elem_of_app; [eauto|].
    injection Hin as -> ->. by apply H1.
  - done.
  - apply final_term_snoc; [done|]. intros p Hp ->. by apply (H3 (pid c) c).
Qed.

Lemma Safe_step s e : Safe s → Safe (step s e).
Proof.
  intros HS. destruct e; simpl.
  - unfold startService. destruct (remote s); [done|]. destruct (running s); [done|].
    destruct installed; [|done]. simpl.
    destruct HS as [H1 H2 H3 H4]. split; simpl.
    + intros p [= <-]. simpl. lia.
    + intros p sig Hin. apply H2 in Hin. lia.
    + intros p c Ht [= <-]. simpl. apply H2 in Ht. lia.
    + done.
  - by apply Safe_stop.
  - unfold shutdown. destruct (running s); [by apply Safe_stop|done].
  - destruct (timers s) as [|n] eqn:Et; [done|].
    set (s' := {| installPath := installPath s; process := process s;
                  logStream := logStream s; signals := signals s;
                  timers := n; nextPid := nextPid s |}).
    assert (HS' : Safe s') by (eapply Safe_same; [exact HS|done|done|by right]).
    unfold force_kill, running. change (process s') with (process s).
    destruct (process s) as [c|] eqn:Hc; [|done].
    destruct (killed c); [done|]. simpl. by eapply Safe_killed.
  - eapply Safe_same; [exact HS|done|done|by left].
Qed.

Lemma Safe_run es : ∀ s, Safe s → Safe (run es s).
Proof.
  induction es as [|e es IH]; intros s HS; [done|]. apply IH. by apply Safe_step.
Qed.

Lemma final_term_split l : ∀ pre p post,
  final_term l → l = pre ++ (p, SIGTERM) :: post → p ∉ post.*1.
Proof.
  induction l as [|[q s] l IH]; intros pre p post Hl Heq.
  - by destruct pre.
  - destruct pre as [|x pre]; simpl in Heq.
    + injection Heq as Hq Hs Hpost. subst q s l. by destruct Hl.
    + injection Heq as Hx Hpost. subst l. eapply (IH pre); [|done].
      simpl in Hl. destruct s; [by destruct Hl|done].
Qed.

(** X18. Whatever calls and events follow one another, a process to which
    [stopService] has sent [SIGTERM] is never signalled again: the client
    drops its reference in the same call, so the force-kill armed for five
    seconds later finds no process, or a process started in the meantime,
    but never the one it was armed for.  Right after a [stopService] that
    found a running process the client holds no process, and the timer
    firing then sends nothing. *)
Theorem no_signal_after_sigterm installPath0 es :
  let s := run es (new_Service installPath0) in
  (∀ pre p post, signals s = pre ++ (p, SIGTERM) :: post → p ∉ post.*1) ∧
  (∀ p c, (p, SIGTERM) ∈ signals s → process s = Some c → pid c ≠ p) ∧
  (∀ delivered c, remote s = false → process s = Some c → killed c = false →
     process (stopService delivered s) = None ∧
     ∀ delivered', signals (step (stopService delivered s) (EForceKill delivered')) =
                   signals s ++ [(pid c, SIGTERM)]).
Proof.
  cbv zeta.
  assert (HS : Safe (run es (new_Service installPath0))).
  { apply Safe_run.
    split; simpl;
      [done
      |intros p sig Hin; by apply elem_of_nil in Hin
      |intros p c Hin; by apply elem_of_nil in Hin
      |done]. }
  set (s := run es (new_Service installPath0)) in *. clearbody s.
  split; [|split].
  - intros pre p post Heq. eapply final_term_split; [apply (safe_final s HS)|done].
  - intros p c. apply (safe_dropped s HS).
  - intros delivered c Hr Hc Hk. unfold stopService, running, kill.
    rewrite Hr, Hc, Hk. simpl. split; [done|]. intros delivered'. done.
Qed.

End ServiceStop.

(** ** Validation of the settings *)

Module SettingsValidation.

Import Js ModuleSettings.








End SettingsValidation.

(** ** The transport the bridge uses *)

Module BridgeTransport.

Import SocketBridge.

(** The bridge keeps its configuration and only ever holds a transport of
    the kind [determineConnectionType] chooses. *)
Definition chosen (cfg : BridgeConfig) (b : Bridge) : Prop :=
  config b = cfg ∧
  (activeConnectionType b = None ∨
   activeConnectionType b = Some (determineConnectionType cfg)) ∧
  (determineConnectionType cfg = webrtc → ws b = None) ∧
  (determineConnectionType cfg = websocket → rtc b = None).

Lemma chosen_same cfg b b' :
  chosen cfg b → config b' = config b → activeConnectionType b' = activeConnectionType b →
  ws b' = ws b → rtc b' = rtc b → chosen cfg b'.
Proof. unfold chosen. by intros (? & ? & ? & ?) -> -> -> ->. Qed.

Lemma scheduleReconnect_transports b :
  let b' := fst (scheduleReconnect b) in
  config b' = config b ∧ activeConnectionType b' = activeConnectionType b ∧
  ws b' = ws b ∧ rtc b' = rtc b.
Proof. cbv zeta. unfold scheduleReconnect. by destruct (_ >=? _). Qed.

Lemma chosen_connect cfg thr b : chosen cfg b → chosen cfg (fst (connect thr b)).
Proof.
  intros (Hc & Ha & Hw & Hr). unfold connect.
  destruct (connectionState b); try done;
    rewrite Hc; destruct (determineConnectionType cfg) eqn:E; try destruct thr; simpl;
    (split; [done|]); rewrite ?E; (split; [by right|]); split; auto; done.
Qed.

Lemma sendMessage_transport m b o :
  o ∈ sendMessage m b → ∃ t, o = OSend t m ∧ activeConnectionType b = Some t.
Proof.
  unfold sendMessage. destruct (connectionState b); try by intros ?%elem_of_nil.
  destruct (activeConnectionType b) as [[]|], (rtc b), (ws b);
    try (by intros ?%elem_of_nil); intros ->%list_elem_of_singleton; eauto.
Qed.

Lemma step_transport queries cfg e b :
  chosen cfg b →
  chosen cfg (fst (step queries e b)) ∧
  ∀ t m, OSend t m ∈ snd (step queries e b) → t = determineConnectionType cfg.
Proof.
  intros HK.
  assert (Hsend : ∀ m' t m, OSend t m ∈ sendMessage m' b → t = determineConnectionType cfg).
  { intros m' t m (t' & [= -> ->] & Ha)%sendMessage_transport.
    destruct HK as (_ & [Hn|Hs] & _); congruence. }
  assert (Hsched : ∀ b0, chosen cfg b0 →
            chosen cfg (fst (scheduleReconnect b0)) ∧
            ∀ t m, OSend t m ∈ snd (scheduleReconnect b0) → t = determineConnectionType cfg).
  { intros b0 HK0. split.
    - destruct (scheduleReconnect_transports b0) as (? & ? & ? & ?). by eapply chosen_same.
    - intros t m. unfold scheduleReconnect. destruct (_ >=? _); simpl.
      + by intros ?%elem_of_nil.
      + destruct (reconnectTimer b0); simpl; rewrite ?elem_of_cons, elem_of_nil;
          intros H; repeat (destruct H as [H|H]; try discriminate); done. }
  destruct e; simpl.
  - split; [by apply chosen_connect|].
    intros t m Hin. destruct (BridgeReconnect.connect_silent wsCtorThrows b) as (Hs & _).
    rewrite Forall_forall in Hs. specialize (Hs _ Hin).
    unfold connect in Hin.
    destruct (connectionState b), (determineConnectionType (config b)), wsCtorThrows;
      simpl in Hin; by apply elem_of_nil in Hin.
  - case_bool_decide; simpl; [|split; [done|by intros t0 m ?%elem_of_nil]].
    split; [apply chosen_connect; by eapply chosen_same|].
    intros t0 m Hin. unfold connect in Hin. simpl in Hin.
    destruct (connectionState b), (determineConnectionType (config b)), wsCtorThrows;
      simpl in Hin; by apply elem_of_nil in Hin.
  - split; [by eapply chosen_same|].
    intros t m Hin. apply list_elem_of_singleton in Hin. discriminate.
  - apply (Hsched (set_state DISCONNECTED b)). by eapply chosen_same.
  - unfold on_close. destruct wasClean; simpl.
    + split; [by eapply chosen_same|]. by intros t m ?%elem_of_nil.
    + apply (Hsched (set_state DISCONNECTED b)). by eapply chosen_same.
  - split; [by eapply chosen_same|]. by intros t m ?%elem_of_nil.
  - split; [by eapply chosen_same|].
    intros t m Hin. apply list_elem_of_singleton in Hin. discriminate.
  - apply (Hsched (set_state DISCONNECTED b)). by eapply chosen_same.
  - split.
    + destruct HK as (Hc & _). unfold disconnect, chosen. simpl. split; [done|]. auto.
    + intros t m. unfold disconnect. simpl.
      destruct (reconnectTimer b), (rtc b), (ws b); simpl;
        rewrite ?elem_of_cons, elem_of_nil;
        intros H; repeat (destruct H as [H|H]; try discriminate); done.
  - destruct (BridgeReconnect.handleMessage_silent queries m b) as [Hb _].
    pose proof (BridgeReplies.handleMessage_handled queries m b) as Hh.
    split; [by rewrite Hb|].
    intros t m0 Hin.
    destruct Hh as [|t' id response _ _ _ Hact|t' id _ _ _ Hact| |].
    + by apply elem_of_nil in Hin.
    + apply list_elem_of_singleton in Hin. injection Hin as -> _.
      unfold BridgeQueries.active_transport in Hact.
      destruct HK as (_ & [Hn|Hs] & _); rewrite ?Hn, ?Hs in Hact.
      * discriminate.
      * destruct (determineConnectionType cfg), (rtc b), (ws b); congruence.
    + apply list_elem_of_singleton in Hin. injection Hin as -> _.
      unfold BridgeQueries.active_transport in Hact.
      destruct HK as (_ & [Hn|Hs] & _); rewrite ?Hn, ?Hs in Hact.
      * discriminate.
      * destruct (determineConnectionType cfg), (rtc b), (ws b); congruence.
    + apply list_elem_of_singleton in Hin. discriminate.
    + apply list_elem_of_singleton in Hin. discriminate.
  - split; [done|]. intros t m. apply Hsend.
Qed.

(** X20. The bridge never mixes its transports.  Whatever the events, every
    message it sends goes over the transport [determineConnectionType]
    picks for its configuration (the configured one, or in automatic mode
    WebRTC on an https page and WebSocket otherwise), and only a transport
    object of that kind is ever held. *)
Theorem one_transport_kind queries cfg es :
  let σ := exec queries es (new_Bridge cfg, []) in
  let kind := determineConnectionType cfg in
  (∀ t m, OSend t m ∈ snd σ → t = kind) ∧
  (activeConnectionType (fst σ) = None ∨ activeConnectionType (fst σ) = Some kind) ∧
  (kind = webrtc → ws (fst σ) = None) ∧
  (kind = websocket → rtc (fst σ) = None) ∧
  (kind = match cfg_connectionType cfg with
          | Some (explicit t) => t
          | _ => if cfg_pageIsHttps cfg then webrtc else websocket
          end).
Proof.
  cbv zeta.
  assert (H : ∀ σ0, chosen cfg (fst σ0) →
            (∀ t m, OSend t m ∈ snd σ0 → t = determineConnectionType cfg) →
            chosen cfg (fst (exec queries es σ0)) ∧
            ∀ t m, OSend t m ∈ snd (exec queries es σ0) → t = determineConnectionType cfg).
  { induction es as [|e es IH]; intros σ0 HK Ho; simpl; [done|].
    destruct (step_transport queries cfg e (fst σ0) HK) as [HK' Ho'].
    destruct (step queries e (fst σ0)) as [b' o]. apply IH; simpl; [done|].
    intros t m [?|?]%elem_of_app; eauto. }
  destruct (H (new_Bridge cfg, [])) as [(Hc & Ha & Hw & Hr) Ho].
  { unfold chosen. simpl. auto. }
  { simpl. by intros t m ?%elem_of_nil. }
  split; [done|]. split; [done|]. split; [done|]. split; [done|].
  unfold determineConnectionType. by destruct (cfg_connectionType cfg) as [[]|].
Qed.

End BridgeTransport.

(** ** Requesting a map *)

Module MapRequests.

Import Js MapGenerationTools MapRequest.




End MapRequests.

(** ** Requests waiting for an answer *)

Module Outstanding.

Import Js BackendClient.

(** Every request in the pending table was written to a socket. *)
Definition written (c : Client) : Prop :=
  ∀ id h, pending c !! id = Some h → ∃ s r, (s, r) ∈ wire c ∧ req_id r = id.

Lemma written_weaken c c' :
  written c → pending c' ⊆ pending c → wire c' = wire c → written c'.
Proof.
  intros Hw Hp Hwire id h Hid. rewrite Hwire. eapply Hw, lookup_weaken; done.
Qed.

Lemma process_line_wire JSON_parse l c : wire (process_line JSON_parse l c) = wire c.
Proof.
  unfold process_line.
  destruct (parse_response JSON_parse l) as [[[id error] result]|]; [|done].
  destruct (pending_get id _) as [[key h]|]; [|done].
  by destruct (frame_outcome error result).
Qed.

Lemma frames_wire JSON_parse ls : ∀ c,
  wire (foldl (fun c l => process_line JSON_parse l c) c ls) = wire c.
Proof.
  induction ls as [|l ls IH]; intros c; simpl; [done|].
  by rewrite IH, process_line_wire.
Qed.

Lemma rejectAll_wire err c : wire (rejectAll err c) = wire c.
Proof.
  unfold rejectAll. simpl. generalize (map_to_list (pending c)). intros l.
  revert c. induction l as [|p l IH]; intros c; simpl; [done|]. by rewrite IH.
Qed.

Lemma written_step JSON_parse e c : written c → written (step JSON_parse e c).
Proof.
  intros Hw. unfold step. destruct (exited c); [done|]. destruct e.
  - destruct (Sending.send_cases id method params conn writeThrows c)
      as (_ & [(s & _ & _ & _ & Hwire & Hp & _)|[(e & _ & Hwire & Hp & _)|(e & _ & _ & Hwire & Hp & _)]]).
    + intros i h. rewrite Hp, Hwire, lookup_insert. case_decide as Hi.
      * intros _. subst i. eexists _, _. split; [apply elem_of_app; right; by apply list_elem_of_singleton|done].
      * intros Hl. destruct (Hw i h Hl) as (s' & r & Hin & Hr).
        exists s', r. split; [apply elem_of_app; by left|done].
    + eapply written_weaken; [done| |done]. by rewrite Hp.
    + eapply written_weaken; [done| |done]. rewrite Hp. apply delete_subseteq.
  - rewrite Multiplexing.onData_frames. eapply written_weaken; [done|..]; simpl.
    + apply Multiplexing.frames_grow.
    + apply frames_wire.
  - intros i h. destruct (Multiplexing.rejectAll_fields err (log "connect(): error" c)) as (-> & _).
    by rewrite lookup_empty.
  - intros i h. destruct (Multiplexing.rejectAll_fields (ErrorObj "Backend disconnected") c) as (-> & _).
    by rewrite lookup_empty.
  - eapply written_weaken; [done|..]; by destruct code as [[]|].
  - eapply written_weaken; [done|..]; unfold cleanup; simpl;
      (destruct (backendProcess c) as [p|]; [destruct (killed p)|]); simpl;
      (destruct (socket c) as [s|]; [destruct (destroyed s)|]); done.
Qed.

(** X22. For every history of the client, a request that is in the pending
    table has been written to a socket: no promise waits for an answer to a
    request that was never sent.  And a request in the table is never
    settled yet, while a settled promise is never in the table. *)
Theorem pending_requests_were_written JSON_parse es :
  let c := run JSON_parse es new_BackendClient in
  (∀ id h, pending c !! id = Some h →
     (∃ s r, (s, r) ∈ wire c ∧ req_id r = id) ∧
     outcome_of h c = None ∧ (h < nextCall c)%nat) ∧
  (∀ h o, outcome_of h c = Some o → ∀ id, pending c !! id ≠ Some h).
Proof.
  cbv zeta.
  assert (Hw : written (run JSON_parse es new_BackendClient)).
  { assert (H0 : written new_BackendClient) by (intros id h; simpl; by rewrite lookup_empty).
    revert H0. generalize new_BackendClient.
    induction es as [|e es IH]; intros c Hc; [done|].
    apply IH. by apply written_step. }
  assert (HI : Multiplexing.Inv (run JSON_parse es new_BackendClient))
    by apply Multiplexing.Inv_run, Multiplexing.Inv_new.
  set (c := run JSON_parse es new_BackendClient) in *. clearbody c.
  assert (Hun : ∀ id h, pending c !! id = Some h → outcome_of h c = None).
  { intros id h Hid. unfold outcome_of.
    rewrite Multiplexing.filter_handle_absent; [done|].
    by eapply Multiplexing.inv_unsettled. }
  split.
  - intros id h Hid. split; [by eapply Hw|]. split; [by eapply Hun|].
    by eapply Multiplexing.inv_fresh.
  - intros h o Ho id Hid. rewrite (Hun id h Hid) in Ho. discriminate.
Qed.

End Outstanding.
